(** * enum-generator.ts: enum declarations and translation tables

  A shallow embedding of [EnumGenerator] from
  [packages/plugin/src/code-gen/enum-generator.ts]: the methods
  [generateEnum], [generateTranslationTable] and [formatEnumName],
  together with the small part of the JavaScript string and regular
  expression semantics and of the TypeScript syntax factory they rely on.

  Strings.  A JavaScript string is a sequence of UTF-16 code units.  The
  model uses [string], whose characters are the 256 values of [ascii]; a
  character stands for the code unit of the same number, so the model
  covers exactly the strings over U+0000..U+00FF (ASCII and Latin-1), which
  contains every protobuf identifier.  *)

From Stdlib Require Import Bool Arith Lia List ZArith Ascii String.
Import ListNotations.
Open Scope string_scope.
Open Scope nat_scope.

Set Implicit Arguments.
Set Warnings "-register-all".

(* ------------------------------------------------------------------ *)
(** ** JavaScript strings *)

Module JsString.

Definition code (c : ascii) : nat := nat_of_ascii c.

Definition in_range (lo hi : nat) (c : ascii) : bool :=
  (lo <=? code c) && (code c <=? hi).

Fixpoint map (f : ascii -> ascii) (s : string) : string :=
  match s with
  | EmptyString => EmptyString
  | String c s' => String (f c) (map f s')
  end.

(** [s.slice(n)] for [n <= s.length]. *)
Fixpoint drop (n : nat) (s : string) : string :=
  match n, s with
  | O, _ => s
  | S n', String _ s' => drop n' s'
  | S _, EmptyString => EmptyString
  end.

(** [s.slice(0, n)]. *)
Definition take (n : nat) (s : string) : string := substring 0 n s.

(** If [s] starts with [p], what follows [p]. *)
Fixpoint strip_prefix (p s : string) : option string :=
  match p, s with
  | EmptyString, _ => Some s
  | String a p', String b s' =>
      if Ascii.eqb a b then strip_prefix p' s' else None
  | String _ _, EmptyString => None
  end.

(** Unicode simple lower-case mapping on U+0000..U+00FF: A-Z, and the
    Latin-1 capitals U+00C0..U+00DE except the multiplication sign
    U+00D7, move up by 32; every such mapping is one code unit and stays
    in the range. *)
Definition lower_unit (c : ascii) : ascii :=
  if in_range 65 90 c then ascii_of_nat (code c + 32)
  else if in_range 192 222 c && negb (code c =? 215)
       then ascii_of_nat (code c + 32)
  else c.

(** Upper-case mapping.  It is exact on a-z, on the characters without
    case, and on the Latin-1 small letters U+00E0..U+00FE (without the
    division sign U+00F7).  The three characters whose upper case leaves
    the range (U+00B5, U+00DF, U+00FF) are left as they are: the generator
    upper-cases only regular-expression matches made of white space,
    underscore and a-z, where they never occur. *)
Definition upper_unit (c : ascii) : ascii :=
  if in_range 97 122 c then ascii_of_nat (code c - 32)
  else if in_range 224 254 c && negb (code c =? 247)
       then ascii_of_nat (code c - 32)
  else c.

(** [String.prototype.toLowerCase] and [String.prototype.toUpperCase]. *)
Definition toLowerCase (s : string) : string := map lower_unit s.
Definition toUpperCase (s : string) : string := map upper_unit s.

(** Truthiness of a string value: only the empty string is falsy. *)
Definition truthy (s : string) : bool :=
  match s with EmptyString => false | String _ _ => true end.

End JsString.

(* ------------------------------------------------------------------ *)
(** ** Regular expressions

  The fragment of ECMAScript patterns that the generator's three
  literals use, with the backtracking semantics of the language
  specification: a pattern is run against the input at one position with
  a continuation for what follows it; alternatives are tried left to
  right and [+] is greedy. *)

Module Regex.
Import JsString.

Inductive regex : Type :=
| Lit (l : string)                 (* literal characters *)
| Class (p : ascii -> bool)        (* \s, \w, [a-z] *)
| Bol                              (* ^ (no multiline flag) *)
| Alt (r1 r2 : regex)              (* r1|r2 *)
| Seq (r1 r2 : regex)              (* r1 r2 *)
| Plus (p : ascii -> bool)         (* class+, greedy *)
| Group (r : regex).               (* (r), the capturing group 1 *)

(** Character classes, restricted to U+0000..U+00FF.  [\s] is white
    space and line terminators: TAB, LF, VT, FF, CR, SPACE, NBSP. *)
Definition cls_space (c : ascii) : bool :=
  in_range 9 13 c || (code c =? 32) || (code c =? 160).
Definition cls_word (c : ascii) : bool :=
  in_range 97 122 c || in_range 65 90 c || in_range 48 57 c
  || (code c =? 95).
Definition cls_az (c : ascii) : bool := in_range 97 122 c.

(** End index of a match and the text captured by group 1. *)
Definition outcome : Type := nat * option string.

Definition cont : Type := nat -> string -> option string -> option outcome.

(** [class+] at index [i], where [s] is the input from [i] on: consume
    one character of the class, then prefer to consume more, and fall
    back to the continuation. *)
Fixpoint plus_class (p : ascii -> bool) (i : nat) (s : string)
    (cap : option string) (k : cont) : option outcome :=
  match s with
  | String c s' =>
      if p c then
        match plus_class p (S i) s' cap k with
        | Some m => Some m
        | None => k (S i) s' cap
        end
      else None
  | EmptyString => None
  end.

(** [run r i s cap k]: match [r] at index [i] of the input, [s] being the
    input from [i] on, then continue with [k]. *)
Fixpoint run (r : regex) (i : nat) (s : string) (cap : option string)
    (k : cont) : option outcome :=
  match r with
  | Lit l =>
      match strip_prefix l s with
      | Some s' => k (i + length l) s' cap
      | None => None
      end
  | Class p =>
      match s with
      | String c s' => if p c then k (S i) s' cap else None
      | EmptyString => None
      end
  | Bol => if i =? 0 then k i s cap else None
  | Alt r1 r2 =>
      match run r1 i s cap k with
      | Some m => Some m
      | None => run r2 i s cap k
      end
  | Seq r1 r2 => run r1 i s cap (fun i' s' cap' => run r2 i' s' cap' k)
  | Plus p => plus_class p i s cap k
  | Group r1 =>
      run r1 i s cap (fun i' s' _ => k i' s' (Some (take (i' - i) s)))
  end.

(** The match object of [RegExp.prototype.exec]: [index], element 0 (the
    matched text) and element 1 (group 1, [None] for undefined). *)
Record MatchResult : Type := mkMatch {
  index : nat;
  whole : string;
  group1 : option string
}.

Definition match_at (r : regex) (i : nat) (s : string) : option MatchResult :=
  match run r i s None (fun j _ cap => Some (j, cap)) with
  | Some (j, cap) => Some (mkMatch i (take (j - i) s) cap)
  | None => None
  end.

(** [exec] with [lastIndex = i]: the first index from [i] on at which the
    pattern matches. *)
Fixpoint exec_from (r : regex) (i : nat) (s : string) : option MatchResult :=
  match match_at r i s with
  | Some m => Some m
  | None =>
      match s with
      | String _ s' => exec_from r (S i) s'
      | EmptyString => None
      end
  end.

(** [str.match(r)] for a pattern without the g flag. *)
Definition string_match (s : string) (r : regex) : option MatchResult :=
  exec_from r 0 s.

(** [str.replace(r, f)] for a pattern with the g flag and a replacer
    function of the matched text.  [s] is the input from index [i] on;
    each round copies the text before the next match, then the
    replacement, and goes on after the match (one character further
    after an empty match).  Every round but the last consumes a
    character, so [length s + 1] rounds are enough. *)
Fixpoint replace_loop (fuel : nat) (r : regex) (f : string -> string)
    (i : nat) (s : string) : string :=
  match fuel with
  | O => s
  | S fuel' =>
      match exec_from r i s with
      | None => s
      | Some m =>
          let before := index m - i in
          let len := length (whole m) in
          take before s ++ f (whole m) ++
          (if len =? 0 then
             match drop before s with
             | String c s' =>
                 String c (replace_loop fuel' r f (S (index m)) s')
             | EmptyString => EmptyString
             end
           else replace_loop fuel' r f (index m + len)
                             (drop (before + len) s))
      end
  end.

Definition replace_all (s : string) (r : regex) (f : string -> string)
    : string :=
  replace_loop (S (length s)) r f 0 s.

End Regex.

(* ------------------------------------------------------------------ *)
(** ** Descriptors and the enum value catalog *)

(** One declared member of an enum, [EnumValueDescriptorProto].  Both
    fields are optional in the descriptor.  [ident] stands for the identity
    of the descriptor object, which is how the comment service finds the
    member's documentation. *)
Module EnumValueDescriptorProto.
Record t : Type := make {
  name : option string;
  number : option Z;
  ident : nat
}.
End EnumValueDescriptorProto.

(** [EnumDescriptorProto]: the optional name of the enum and its declared
    members, in declaration order. *)
Module EnumDescriptorProto.
Record t : Type := make {
  name : option string;
  value : list EnumValueDescriptorProto.t
}.
End EnumDescriptorProto.

(** An element of [rt.listEnumValues(enumObject)]. *)
Module EnumObjectValue.
Record t : Type := make {
  name : string;
  number : Z
}.
End EnumObjectValue.

(* ------------------------------------------------------------------ *)
(** ** TypeScript syntax nodes *)

Module ts.

Inductive Modifier : Type := ExportKeyword.

Inductive NodeFlags : Type := Let | Const.

Inductive Expression : Type :=
| Identifier (text : string)
| PropertyAccessExpression (expression : Expression) (name : string)
| StringLiteral (text : string)
| ObjectLiteralExpression (properties : list (string * Expression))
| ArrayLiteralExpression (elements : list Expression) (multiLine : bool).

Record EnumMember : Type := mkEnumMember {
  member_name : string;
  member_value : Z;
  member_comment : option string
}.

Record VariableDeclaration : Type := mkVariableDeclaration {
  decl_name : Expression;
  decl_initializer : Expression
}.

Inductive Statement : Type :=
| EnumDeclaration (modifiers : list Modifier) (name : string)
    (members : list EnumMember)
| VariableStatement (modifiers : list Modifier)
    (declarations : list VariableDeclaration) (flags : NodeFlags).

(** A statement object: the syntax and the comment blocks attached in
    front of it, first to last. *)
Record Node : Type := mkNode {
  statement : Statement;
  leadingComments : list string
}.

(** The factory functions the generator calls. *)
Definition createModifier (k : Modifier) : Modifier := k.
Definition createIdentifier (text : string) : Expression := Identifier text.
Definition createPropertyAccess (e : Expression) (name : string) : Expression :=
  PropertyAccessExpression e name.
Definition createStringLiteral (text : string) : Expression :=
  StringLiteral text.
Definition createPropertyAssignment (name : string) (e : Expression)
    : string * Expression := (name, e).
Definition createObjectLiteral (props : list (string * Expression))
    : Expression := ObjectLiteralExpression props.
Definition createArrayLiteral (elements : list Expression) (multiLine : bool)
    : Expression := ArrayLiteralExpression elements multiLine.
(** The type argument of the source is always [undefined] and is dropped. *)
Definition createVariableDeclaration (name : Expression) (init : Expression)
    : VariableDeclaration := mkVariableDeclaration name init.
Definition createVariableDeclarationList (ds : list VariableDeclaration)
    (flags : NodeFlags) : list VariableDeclaration * NodeFlags := (ds, flags).
Definition createVariableStatement (modifiers : list Modifier)
    (dl : list VariableDeclaration * NodeFlags) : Statement :=
  VariableStatement modifiers (fst dl) (snd dl).

End ts.

(* ------------------------------------------------------------------ *)
(** ** The object store and the output file

    Statement objects are shared: the file keeps the object it was given,
    and a later change of that object (an attached comment) is seen through
    the file.  A reference is an index into the store.  The world also
    keeps the calls made on the file and on the comment service, in the
    order they are made. *)

Definition ref : Type := nat.

(** Modelled from the spec: the mode argument of
    [addCommentsForDescriptor].  The spec names two ways of attaching the
    documentation of a descriptor to a statement: appended to the leading
    comment block the statement has, or replacing it.  The generator passes
    ['appendToLeadingBlock']. *)
Inductive CommentsMode : Type := appendToLeadingBlock | replaceLeadingBlock.

(** A call on an object the generator shares with its caller: the output
    file and a statement object handed to the comment service. *)
Inductive Call : Type :=
| call_addStatement (statement : ref)
| call_addCommentsForDescriptor (node : ref)
    (descriptor : EnumDescriptorProto.t) (mode : CommentsMode).

Record World : Type := mkWorld {
  store : list ts.Node;
  (** [TypescriptFile]: the statements of the output file, in order. *)
  source_statements : list ref;
  (** The calls made so far, first to last. *)
  calls : list Call
}.

(** State-passing computations over the world. *)
Definition M (A : Type) : Type := World -> A * World.

Definition ret {A : Type} (a : A) : M A := fun w => (a, w).

Definition bind {A B : Type} (c : M A) (k : A -> M B) : M B :=
  fun w => let (a, w') := c w in k a w'.

Notation "x <- c ;; k" := (bind c (fun x => k))
  (at level 61, c at next level, right associativity).
Notation "c ;;; k" := (bind c (fun _ => k))
  (at level 61, right associativity).

(** A new object gets the next free reference. *)
Definition new_node (n : ts.Node) : M ref :=
  fun w => (List.length (store w),
            mkWorld (store w ++ [n])%list (source_statements w) (calls w)).

Definition deref (w : World) (r : ref) : option ts.Node := nth_error (store w) r.

Fixpoint update_nth {A : Type} (i : nat) (f : A -> A) (l : list A)
    {struct l} : list A :=
  match l, i with
  | nil, _ => nil
  | x :: l', O => f x :: l'
  | x :: l', S i' => x :: update_nth i' f l'
  end.

(** Modelled from the spec: [TypescriptFile.addStatement] of the plugin
    framework, whose code is not in this file; the spec describes the file
    as an abstraction that accumulates statements.  The two methods are
    given one file, [source]; it is the file of the world, and
    [source.addStatement(statement)] puts the reference of the statement
    object at the end of its statements. *)
Definition addStatement (r : ref) : M unit :=
  fun w => (tt, mkWorld (store w) (source_statements w ++ [r])%list
                        (calls w ++ [call_addStatement r])%list).

(* ------------------------------------------------------------------ *)
(** ** Collaborators of the generator *)

(** The services an [EnumGenerator] holds ([this.interpreter],
    [this.comments], [this.imports]); their code is outside this file and
    they are taken as they are.
    - [listEnumValues d] is [rt.listEnumValues(this.interpreter.getEnumInfo(d)[1])],
      the resolved catalog of names and numbers;
    - [getCommentBlock v b] is [this.comments.getCommentBlock(v, b)], [None]
      when there is no comment;
    - [imports_type d] is [this.imports.type(source, d)], the identifier
      under which the enum is declared;
    - [typeComment d] is the documentation of the enum type itself, which
      [addCommentsForDescriptor] attaches. *)
Record EnumGenerator : Type := mkEnumGenerator {
  listEnumValues : EnumDescriptorProto.t -> list EnumObjectValue.t;
  getCommentBlock : EnumValueDescriptorProto.t -> bool -> option string;
  imports_type : EnumDescriptorProto.t -> string;
  typeComment : EnumDescriptorProto.t -> option string
}.

(** Modelled from the spec: [TypescriptEnumBuilder] of the plugin
    framework, whose code is not in this file.  The spec describes it as a
    service that accepts an ordered list of (name, number, comment) triples
    and produces a ready declaration: [add] puts a triple at the end,
    [build] makes a new declaration object with the given identifier and
    modifiers and one member per triple, in order. *)
Module TypescriptEnumBuilder.

Definition t : Type := list ts.EnumMember.

(** Modelled from the spec: a new builder holds no triple. *)
Definition new : t := [].

(** Modelled from the spec: [builder.add(name, number, comment)] keeps the
    triple behind the ones it has. *)
Definition add (b : t) (name : string) (number : Z) (comment : option string)
    : t :=
  (b ++ [ts.mkEnumMember name number comment])%list.

(** Modelled from the spec: [builder.build(name, modifiers)] makes a new
    statement object, the declaration of [name] with the triples as its
    members, in the order they were added, and no leading comment yet. *)
Definition build (b : t) (name : string) (modifiers : list ts.Modifier)
    : M ref :=
  new_node (ts.mkNode (ts.EnumDeclaration modifiers name b) []).

End TypescriptEnumBuilder.

(** The node with one more comment behind its leading comments. *)
Definition append_comment (c : option string) (n : ts.Node) : ts.Node :=
  ts.mkNode (ts.statement n)
            (ts.leadingComments n ++
             match c with Some text => [text] | None => [] end)%list.

(** The node with its leading comments replaced by one comment. *)
Definition replace_comment (c : option string) (n : ts.Node) : ts.Node :=
  ts.mkNode (ts.statement n)
            match c with Some text => [text] | None => [] end.

(** Modelled from the spec: [CommentGenerator.addCommentsForDescriptor],
    whose code is not in this file.  In the mode [appendToLeadingBlock] the
    documentation of the descriptor is put at the end of the leading
    comment block the statement object already has, in the other mode it
    takes the place of that block; the object is changed in place. *)
Definition addCommentsForDescriptor (this : EnumGenerator) (r : ref)
    (descriptor : EnumDescriptorProto.t) (mode : CommentsMode)
    : M unit :=
  fun w =>
    (tt,
     mkWorld
       (update_nth r
          match mode with
          | appendToLeadingBlock =>
              append_comment (typeComment this descriptor)
          | replaceLeadingBlock =>
              replace_comment (typeComment this descriptor)
          end
          (store w))
       (source_statements w)
       (calls w ++ [call_addCommentsForDescriptor r descriptor mode])%list).

(* ------------------------------------------------------------------ *)
(** ** The generator *)

Import JsString Regex.

(** [/(?:^|\s|_)[a-z]/g] *)
Definition word_start_pattern : regex :=
  Seq (Alt Bol (Alt (Class cls_space) (Lit "_"))) (Class cls_az).

(** [/_/g] *)
Definition underscore_pattern : regex := Lit "_".

(** [/@Translate: (\w+)/] *)
Definition translate_pattern : regex :=
  Seq (Lit "@Translate: ") (Group (Plus cls_word)).

Definition formatEnumName (name : string) : string :=
  replace_all
    (replace_all (toLowerCase name) word_start_pattern
                 (fun m => toUpperCase m))
    underscore_pattern (fun _ => " ").

(** [descriptor.value.find(v => v.number === ev.number)]: the first
    declared member, in declaration order, whose number is present and
    equal. *)
Definition find_value (descriptor : EnumDescriptorProto.t)
    (ev : EnumObjectValue.t) : option EnumValueDescriptorProto.t :=
  List.find
    (fun v => match EnumValueDescriptorProto.number v with
              | Some n => Z.eqb n (EnumObjectValue.number ev)
              | None => false
              end)
    (EnumDescriptorProto.value descriptor).

Definition synthetic_comment : string :=
  "@generated synthetic value - protobuf-ts requires all enums to have a 0 value".

(** The body of the loop of [generateEnum]. *)
Definition generateEnum_step (this : EnumGenerator)
    (descriptor : EnumDescriptorProto.t)
    (builder : TypescriptEnumBuilder.t) (ev : EnumObjectValue.t)
    : TypescriptEnumBuilder.t :=
  let evDescriptor := find_value descriptor ev in
  let comments :=
    match evDescriptor with
    | Some v => getCommentBlock this v true
    | None => Some synthetic_comment
    end in
  TypescriptEnumBuilder.add builder (EnumObjectValue.name ev)
                            (EnumObjectValue.number ev) comments.

Definition generateEnum (this : EnumGenerator)
    (descriptor : EnumDescriptorProto.t) : M ref :=
  let builder :=
    fold_left (generateEnum_step this descriptor)
              (listEnumValues this descriptor) TypescriptEnumBuilder.new in
  statement <- TypescriptEnumBuilder.build builder
                 (imports_type this descriptor)
                 [ts.createModifier ts.ExportKeyword] ;;
  addStatement statement ;;;
  addCommentsForDescriptor this statement descriptor appendToLeadingBlock ;;;
  ret statement.

(** [match[1]]; group 1 of [translate_pattern] takes part in every match,
    see [translate_match_group]. *)
Definition element1 (m : MatchResult) : string :=
  match group1 m with Some text => text | None => "undefined" end.

(** The label of one catalog entry: lines 91 to 101 of the source. *)
Definition translatedName (this : EnumGenerator)
    (descriptor : EnumDescriptorProto.t) (ev : EnumObjectValue.t) : string :=
  let evDescriptor := find_value descriptor ev in
  let comments :=
    match evDescriptor with
    | Some v => getCommentBlock this v true
    | None => None
    end in
  let translatedName := formatEnumName (EnumObjectValue.name ev) in
  match comments with
  | Some text =>
      if truthy text then
        match string_match text translate_pattern with
        | Some m => element1 m
        | None => translatedName
        end
      else translatedName
  | None => translatedName
  end.

(** [descriptor.name ?? "SpectralBot"] *)
Definition name_or_fallback (descriptor : EnumDescriptorProto.t) : string :=
  match EnumDescriptorProto.name descriptor with
  | Some n => n
  | None => "SpectralBot"
  end.

(** A template literal converts the interpolated value to a string; a
    missing value reads [undefined]. *)
Definition interpolate (v : option string) : string :=
  match v with Some s => s | None => "undefined" end.

(** An element of the [translations] array. *)
Record Translation : Type := mkTranslation {
  id : ts.Expression;
  name : ts.Expression
}.

(** The body of the loop of [generateTranslationTable]. *)
Definition generateTranslationTable_step (this : EnumGenerator)
    (descriptor : EnumDescriptorProto.t)
    (translations : list Translation) (ev : EnumObjectValue.t)
    : list Translation :=
  (translations ++
   [mkTranslation
      (ts.createPropertyAccess
         (ts.createIdentifier (name_or_fallback descriptor))
         (EnumObjectValue.name ev))
      (ts.createStringLiteral (translatedName this descriptor ev))])%list.

Definition generateTranslationTable (this : EnumGenerator)
    (descriptor : EnumDescriptorProto.t) : M unit :=
  let translations :=
    fold_left (generateTranslationTable_step this descriptor)
              (listEnumValues this descriptor) [] in
  let translationArray :=
    ts.createArrayLiteral
      (List.map (fun t => ts.createObjectLiteral
                            [ts.createPropertyAssignment "id" (id t);
                             ts.createPropertyAssignment "name" (name t)])
                translations)
      true in
  let translationTableVarStatement :=
    ts.createVariableStatement
      [ts.createModifier ts.ExportKeyword]
      (ts.createVariableDeclarationList
         [ts.createVariableDeclaration
            (ts.createIdentifier
               (interpolate (EnumDescriptorProto.name descriptor)
                ++ "Translation"))
            translationArray]
         ts.Const) in
  statement <- new_node (ts.mkNode translationTableVarStatement []) ;;
  addStatement statement.

(* ------------------------------------------------------------------ *)
(** ** Vocabulary of the statements *)

Definition is_underscore (c : ascii) : bool := Ascii.eqb "_" c.

(** A character after which [word_start_pattern] capitalises. *)
Definition is_separator (c : ascii) : bool := cls_space c || is_underscore c.

Definition underscore_to_space (c : ascii) : ascii :=
  if is_underscore c then " "%char else c.

(** One pass over the characters: [at_start] tells whether the character
    in hand is the first of the string or follows a separator. *)
Fixpoint capitalize_from (sep : ascii -> bool) (at_start : bool) (s : string)
    : string :=
  match s with
  | EmptyString => EmptyString
  | String c s' =>
      String (if at_start && cls_az c then upper_unit c else c)
             (capitalize_from sep (sep c) s')
  end.

(** What [formatEnumName] computes, as three passes. *)
Definition humanize (name : string) : string :=
  JsString.map underscore_to_space
    (capitalize_from is_separator true (toLowerCase name)).

(** The same three passes with the boundary read as the spec words it:
    the string start, a space (U+0020) or an underscore. *)
Definition is_space_or_underscore (c : ascii) : bool :=
  Ascii.eqb " " c || is_underscore c.

Definition humanize_as_worded (name : string) : string :=
  JsString.map underscore_to_space
    (capitalize_from is_space_or_underscore true (toLowerCase name)).

(** [sub] occurs in [s]. *)
Definition contains (sub s : string) : Prop :=
  exists pre post, s = pre ++ sub ++ post.

Definition directive : string := "@Translate: ".

Definition starts_with_word (s : string) : bool :=
  match s with String c _ => cls_word c | EmptyString => false end.

Fixpoint all_word (s : string) : bool :=
  match s with
  | EmptyString => true
  | String c s' => cls_word c && all_word s'
  end.

(** [s] begins with the directive marker and at least one word character:
    [translate_pattern] matches at the start of [s]. *)
Definition directive_at (s : string) : bool :=
  match strip_prefix directive s with
  | Some rest => starts_with_word rest
  | None => false
  end.

(** The first place of [text] where the marker is followed by a word
    character is offset [n]. *)
Definition first_directive_at (n : nat) (text : string) : Prop :=
  directive_at (drop n text) = true /\
  forall k, k < n -> directive_at (drop k text) = false.

(** The longest prefix of word characters, and what follows it. *)
Fixpoint span_word (s : string) : string * string :=
  match s with
  | String c s' =>
      if cls_word c then let (tok, rest) := span_word s' in (String c tok, rest)
      else (EmptyString, s)
  | EmptyString => (EmptyString, EmptyString)
  end.

(** The object the generator leaves at [r] is an exported enum
    declaration with these members. *)
Definition enum_declared (w : World) (r : ref) (name : string)
    (members : list ts.EnumMember) : Prop :=
  exists comments,
    deref w r =
    Some (ts.mkNode (ts.EnumDeclaration [ts.ExportKeyword] name members)
                    comments).

(** The member [generateEnum] makes of a catalog entry. *)
Definition member_of (this : EnumGenerator) (descriptor : EnumDescriptorProto.t)
    (ev : EnumObjectValue.t) : ts.EnumMember :=
  ts.mkEnumMember (EnumObjectValue.name ev) (EnumObjectValue.number ev)
    match find_value descriptor ev with
    | Some v => getCommentBlock this v true
    | None => Some synthetic_comment
    end.

(** The array element [generateTranslationTable] makes of a catalog
    entry. *)
Definition entry_of (this : EnumGenerator) (descriptor : EnumDescriptorProto.t)
    (ev : EnumObjectValue.t) : ts.Expression :=
  ts.ObjectLiteralExpression
    [("id", ts.PropertyAccessExpression
              (ts.Identifier (name_or_fallback descriptor))
              (EnumObjectValue.name ev));
     ("name", ts.StringLiteral (translatedName this descriptor ev))].

(** The statement [generateTranslationTable] adds for a table called
    [table] with the elements [elements]. *)
Definition translation_statement (table : string)
    (elements : list ts.Expression) : ts.Statement :=
  ts.VariableStatement [ts.ExportKeyword]
    [ts.mkVariableDeclaration (ts.Identifier table)
       (ts.ArrayLiteralExpression elements true)]
    ts.Const.

Definition starts_az (s : string) : bool :=
  match s with String c _ => cls_az c | EmptyString => false end.

(** The comment the generator looks at for a catalog entry: the leading
    block of the first declared member with the entry's number. *)
Definition matched_comment (this : EnumGenerator)
    (descriptor : EnumDescriptorProto.t) (ev : EnumObjectValue.t)
    : option string :=
  match find_value descriptor ev with
  | Some v => getCommentBlock this v true
  | None => None
  end.

Definition type_comment_block (this : EnumGenerator)
    (descriptor : EnumDescriptorProto.t) : list string :=
  match typeComment this descriptor with Some text => [text] | None => [] end.




(** ** Sample inputs *)

Module Sample.

Definition unspecified : EnumObjectValue.t :=
  EnumObjectValue.make "UNSPECIFIED" 0.
Definition ready : EnumObjectValue.t :=
  EnumObjectValue.make "READY_TO_START" 1.
Definition done : EnumObjectValue.t := EnumObjectValue.make "DONE" 2.

Definition ready_decl : EnumValueDescriptorProto.t :=
  EnumValueDescriptorProto.make (Some "READY_TO_START") (Some 1%Z) 0.
(** An alias: a second declared member with the number 1. *)
Definition go_decl : EnumValueDescriptorProto.t :=
  EnumValueDescriptorProto.make (Some "GO") (Some 1%Z) 1.
Definition done_decl : EnumValueDescriptorProto.t :=
  EnumValueDescriptorProto.make (Some "DONE") (Some 2%Z) 2.

(** [enum Status { READY_TO_START = 1; GO = 1; DONE = 2; }]: no member is
    zero, so the catalog starts with a synthetic one. *)
Definition status : EnumDescriptorProto.t :=
  EnumDescriptorProto.make (Some "Status") [ready_decl; go_decl; done_decl].

(** The same enum without a name. *)
Definition anonymous : EnumDescriptorProto.t :=
  EnumDescriptorProto.make None [ready_decl; go_decl; done_decl].

(** Services for [status]: [comment_of] gives the comment of a declared
    member by its identity. *)
Definition services (comment_of : nat -> option string) : EnumGenerator :=
  mkEnumGenerator
    (fun _ => [unspecified; ready; done])
    (fun v _ => comment_of (EnumValueDescriptorProto.ident v))
    (fun _ => "Status")
    (fun _ => Some "The state of a job.").

(** Every declared member carries the comment [text]. *)
Definition commented (text : string) : EnumGenerator :=
  services (fun _ => Some text).

(** Only the alias [GO] is documented. *)
Definition alias_documented : EnumGenerator :=
  services (fun i => if i =? 1 then Some "go!" else None).

Definition empty_world : World := mkWorld [] [] [].

(** The name [a<TAB>b]. *)
Definition tab_name : string := String "a" (String "009" (String "b" "")).

End Sample.

(* ------------------------------------------------------------------ *)
(** ** Vocabulary of further properties *)

(** [s] holds an underscore. *)
Fixpoint has_underscore (s : string) : bool :=
  match s with
  | EmptyString => false
  | String c s' => is_underscore c || has_underscore s'
  end.

(** No letter a-z stands first in [s] (asked for when [at_start]) or right
    after a white-space character of [s]. *)
Fixpoint capitalized (at_start : bool) (s : string) : bool :=
  match s with
  | EmptyString => true
  | String c s' => negb (at_start && cls_az c) && capitalized (cls_space c) s'
  end.

(** The elements of the array a translation table statement declares. *)
Definition table_elements (st : ts.Statement) : list ts.Expression :=
  match st with
  | ts.VariableStatement _ [d] _ =>
      match ts.decl_initializer d with
      | ts.ArrayLiteralExpression elements _ => elements
      | _ => []
      end
  | _ => []
  end.

(** The member an element of the table refers to: the property name of the
    access in its [id]. *)
Definition referenced_member (element : ts.Expression) : option string :=
  match element with
  | ts.ObjectLiteralExpression ((key, ts.PropertyAccessExpression _ n) :: _) =>
      if String.eqb key "id" then Some n else None
  | _ => None
  end.

(** The label an element of the table carries: the text of its [name]. *)
Definition element_label (element : ts.Expression) : option string :=
  match element with
  | ts.ObjectLiteralExpression [_; (key, ts.StringLiteral text)] =>
      if String.eqb key "name" then Some text else None
  | _ => None
  end.

(** The member names of an enum declaration, in order. *)
Definition declared_member_names (st : ts.Statement) : list string :=
  match st with
  | ts.EnumDeclaration _ _ members => List.map ts.member_name members
  | _ => []
  end.

(** An enum with [allow_alias]: the catalog keeps both names of the
    number 1, and only the first declared one, [STARTED], is documented, with
    a directive. *)
Module SampleAlias.

Definition started : EnumObjectValue.t := EnumObjectValue.make "STARTED" 1.
Definition running : EnumObjectValue.t := EnumObjectValue.make "RUNNING" 1.

Definition started_decl : EnumValueDescriptorProto.t :=
  EnumValueDescriptorProto.make (Some "STARTED") (Some 1%Z) 0.
Definition running_decl : EnumValueDescriptorProto.t :=
  EnumValueDescriptorProto.make (Some "RUNNING") (Some 1%Z) 1.
(** A declared member whose number is missing. *)
Definition broken_decl : EnumValueDescriptorProto.t :=
  EnumValueDescriptorProto.make (Some "BROKEN") None 2.

Definition phase : EnumDescriptorProto.t :=
  EnumDescriptorProto.make (Some "Phase")
                           [broken_decl; started_decl; running_decl].

Definition services : EnumGenerator :=
  mkEnumGenerator
    (fun _ => [Sample.unspecified; started; running])
    (fun v _ => match EnumValueDescriptorProto.ident v with
                | 0 => Some "Work began. @Translate: Begun"
                | 1 => Some "@Translate: Busy"
                | _ => Some "never used"
                end)
    (fun _ => "Phase")
    (fun _ => None).

End SampleAlias.

(* ------------------------------------------------------------------ *)
(** * Proofs *)

Unset Implicit Arguments.

(** ** Strings *)

Section StringFacts.

Lemma append_empty_r (s : string) : s ++ "" = s.
Proof. induction s as [|c s IH]; simpl; [reflexivity | now rewrite IH]. Qed.

Lemma append_assoc (a b c : string) : (a ++ b) ++ c = a ++ b ++ c.
Proof. induction a as [|x a IH]; simpl; [reflexivity | now rewrite IH]. Qed.

Lemma length_append (a b : string) : length (a ++ b) = length a + length b.
Proof. induction a as [|x a IH]; simpl; [reflexivity | now rewrite IH]. Qed.

Lemma length_string_map (f : ascii -> ascii) (s : string) :
  length (JsString.map f s) = length s.
Proof. induction s as [|c s IH]; simpl; [reflexivity | now rewrite IH]. Qed.

Lemma take_0 (s : string) : take 0 s = "".
Proof. destruct s; reflexivity. Qed.

Lemma take_S (n : nat) (c : ascii) (s : string) :
  take (S n) (String c s) = String c (take n s).
Proof. reflexivity. Qed.

Lemma take_append (a b : string) : take (length a) (a ++ b) = a.
Proof.
  induction a as [|x a IH]; simpl.
  - apply take_0.
  - rewrite take_S. now rewrite IH.
Qed.

Lemma drop_append (a b : string) : drop (length a) (a ++ b) = b.
Proof. induction a as [|x a IH]; simpl; [reflexivity | exact IH]. Qed.

Lemma take_drop (n : nat) (s : string) : take n s ++ drop n s = s.
Proof.
  revert s. induction n as [|n IH]; intros s.
  - now rewrite take_0.
  - destruct s as [|c s]; [reflexivity|].
    rewrite take_S. simpl. now rewrite IH.
Qed.

Lemma length_take (n : nat) (s : string) :
  n <= length s -> length (take n s) = n.
Proof.
  revert s. induction n as [|n IH]; intros s H.
  - now rewrite take_0.
  - destruct s as [|c s]; simpl in H; [lia|].
    rewrite take_S. simpl. rewrite IH; lia.
Qed.

Lemma length_drop (n : nat) (s : string) : length (drop n s) = length s - n.
Proof.
  revert s. induction n as [|n IH]; intros s; simpl.
  - lia.
  - destruct s as [|c s]; simpl; [reflexivity | apply IH].
Qed.

Lemma drop_drop (n k : nat) (s : string) : drop n (drop k s) = drop (k + n) s.
Proof.
  revert s. induction k as [|k IH]; intros s; simpl.
  - reflexivity.
  - destruct s as [|c s]; [now destruct n | apply IH].
Qed.

Lemma strip_prefix_append (p s : string) : strip_prefix p (p ++ s) = Some s.
Proof.
  induction p as [|c p IH]; simpl; [reflexivity|].
  now rewrite Ascii.eqb_refl.
Qed.

Lemma strip_prefix_inv (p s rest : string) :
  strip_prefix p s = Some rest -> s = p ++ rest.
Proof.
  revert s. induction p as [|c p IH]; intros s H; simpl in H.
  - now inversion H.
  - destruct s as [|d s]; [discriminate|].
    destruct (Ascii.eqb_spec c d) as [->|]; [|discriminate].
    simpl. now rewrite (IH _ H).
Qed.

End StringFacts.

(** ** Character classes *)

Ltac all_chars c :=
  destruct c as [[] [] [] [] [] [] [] []]; vm_compute; try reflexivity;
  try discriminate; auto.

Lemma az_not_separator (c : ascii) : cls_az c = true -> is_separator c = false.
Proof. all_chars c. Qed.

Lemma upper_separator (c : ascii) : is_separator c = true -> upper_unit c = c.
Proof. all_chars c. Qed.

Lemma space_not_underscore (c : ascii) :
  cls_space c = true -> is_underscore c = false.
Proof. all_chars c. Qed.

Lemma lower_not_underscore (c : ascii) :
  is_underscore (lower_unit c) = is_underscore c.
Proof. all_chars c. Qed.

(** ** The matching loop, for any pattern *)

Section ExecFacts.

Variable r : regex.

Lemma match_at_index (i : nat) (s : string) (m : MatchResult) :
  match_at r i s = Some m -> index m = i.
Proof.
  unfold match_at.
  destruct (run r i s None _) as [[j cap]|]; [|discriminate].
  intros H; inversion H; reflexivity.
Qed.

Lemma exec_from_index_ge (s : string) :
  forall i m, exec_from r i s = Some m -> i <= index m.
Proof.
  induction s as [|c s IH]; intros i m; simpl;
    destruct (match_at r i _) as [m'|] eqn:E; intros H;
    try discriminate.
  - inversion H; subst. apply match_at_index in E. lia.
  - inversion H; subst. apply match_at_index in E. lia.
  - apply IH in H. lia.
Qed.

(** The search finds the first offset at which the pattern matches. *)
Lemma exec_from_first (s : string) :
  forall i m, exec_from r i s = Some m ->
  exists n, n <= length s /\ index m = i + n /\
            match_at r (i + n) (drop n s) = Some m /\
            forall k, k < n -> match_at r (i + k) (drop k s) = None.
Proof.
  induction s as [|c s IH]; intros i m; simpl;
    destruct (match_at r i _) as [m'|] eqn:E; intros H; try discriminate.
  - inversion H; subst. exists 0. rewrite Nat.add_0_r.
    repeat split; auto; [apply (match_at_index _ _ _ E) | lia].
  - inversion H; subst. exists 0. rewrite Nat.add_0_r. simpl.
    repeat split; auto; [lia | apply (match_at_index _ _ _ E) | lia].
  - destruct (IH _ _ H) as (n & Hn & Hi & Hm & Hk).
    exists (S n). simpl. rewrite <- plus_n_Sm.
    repeat split; auto; [lia|].
    intros [|k] Hlt; simpl.
    + now rewrite Nat.add_0_r.
    + rewrite <- plus_n_Sm. apply Hk. lia.
Qed.

Lemma exec_from_none (s : string) :
  forall i, exec_from r i s = None ->
  forall k, k <= length s -> match_at r (i + k) (drop k s) = None.
Proof.
  induction s as [|c s IH]; intros i; simpl;
    destruct (match_at r i _) as [m'|] eqn:E; intros H; try discriminate.
  - intros k Hk. assert (k = 0) as -> by lia. now rewrite Nat.add_0_r.
  - intros [|k] Hk; simpl.
    + now rewrite Nat.add_0_r.
    + rewrite <- plus_n_Sm. apply (IH _ H). lia.
Qed.

Lemma exec_from_found (s : string) :
  forall i n m, n <= length s ->
  match_at r (i + n) (drop n s) = Some m ->
  (forall k, k < n -> match_at r (i + k) (drop k s) = None) ->
  exec_from r i s = Some m.
Proof.
  induction s as [|c s IH]; intros i n m Hn Hm Hk.
  - simpl in Hn. assert (n = 0) as -> by lia.
    simpl in *. rewrite Nat.add_0_r in Hm. now rewrite Hm.
  - destruct n as [|n].
    + simpl in *. rewrite Nat.add_0_r in Hm. now rewrite Hm.
    + simpl. pose proof (Hk 0 ltac:(lia)) as H0. simpl in H0.
      rewrite Nat.add_0_r in H0. rewrite H0.
      apply (IH (S i) n m).
      * simpl in Hn. lia.
      * simpl in Hm. now rewrite <- plus_n_Sm in Hm.
      * intros k Hlt. specialize (Hk (S k) ltac:(lia)).
        simpl in Hk. now rewrite <- plus_n_Sm in Hk.
Qed.

Variable f : string -> string.

(** No match at the character in hand: it is copied. *)
Lemma replace_loop_skip (fuel i : nat) (c : ascii) (s : string) :
  match_at r i (String c s) = None ->
  replace_loop fuel r f i (String c s)
  = String c (replace_loop fuel r f (S i) s).
Proof.
  intros E. destruct fuel as [|fuel]; [reflexivity|].
  simpl. rewrite E.
  destruct (exec_from r (S i) s) as [m|] eqn:X; [|reflexivity].
  pose proof (exec_from_index_ge _ _ _ X) as Hge.
  replace (index m - i) with (S (index m - S i)) by lia.
  rewrite take_S. simpl.
  destruct (length (whole m) =? 0); reflexivity.
Qed.

Lemma replace_loop_empty (fuel i : nat) :
  match_at r i "" = None -> replace_loop fuel r f i "" = "".
Proof.
  intros E. destruct fuel as [|fuel]; [reflexivity|].
  simpl. now rewrite E.
Qed.

(** A non-empty match at the character in hand: it is replaced and the
    loop goes on behind it. *)
Lemma replace_loop_hit (fuel i : nat) (s : string) (m : MatchResult) :
  match_at r i s = Some m ->
  0 < length (whole m) ->
  replace_loop (S fuel) r f i s
  = f (whole m) ++
    replace_loop fuel r f (i + length (whole m)) (drop (length (whole m)) s).
Proof.
  intros E Hlen.
  assert (X : exec_from r i s = Some m).
  { destruct s; simpl; now rewrite E. }
  pose proof (match_at_index _ _ _ E) as Hi.
  simpl. rewrite X, Hi, Nat.sub_diag, take_0. simpl.
  destruct (length (whole m) =? 0) eqn:Z; [|reflexivity].
  apply Nat.eqb_eq in Z. lia.
Qed.

End ExecFacts.

(** ** The two patterns of [formatEnumName] *)

Lemma match_at_word_start (i : nat) (s : string) :
  match_at word_start_pattern i s =
  match s with
  | String c s' =>
      if (i =? 0) && cls_az c then Some (mkMatch i (String c "") None)
      else if is_separator c then
        match s' with
        | String d _ =>
            if cls_az d then Some (mkMatch i (String c (String d "")) None)
            else None
        | EmptyString => None
        end
      else None
  | EmptyString => None
  end.
Proof.
  assert (H1 : S i - i = 1) by lia.
  assert (H2 : S (S i) - i = 2) by lia.
  unfold match_at, word_start_pattern, is_separator, is_underscore.
  cbn -[Nat.sub take Nat.eqb Ascii.eqb].
  destruct s as [|c s'].
  - destruct (i =? 0); reflexivity.
  - cbn -[Nat.sub take Nat.eqb Ascii.eqb].
    replace (i + 1) with (S i) by lia.
    destruct (i =? 0), (cls_az c), (cls_space c), ("_" =? c)%char;
      simpl andb; simpl orb; cbv iota;
      rewrite ?H1, ?H2, ?take_S, ?take_0; try reflexivity;
      destruct s' as [|d s'']; try reflexivity;
      destruct (cls_az d); rewrite ?H1, ?H2, ?take_S, ?take_0; reflexivity.
Qed.

Lemma capitalize_from_flag (sep : ascii -> bool) (b : bool) (s : string) :
  starts_az s = false ->
  capitalize_from sep b s = capitalize_from sep false s.
Proof.
  destruct s as [|c s]; simpl; [reflexivity|].
  intros ->. now rewrite andb_false_r.
Qed.

(** With enough rounds the loop over [word_start_pattern] is one pass of
    [capitalize_from]; only at index 0 does the start of the string count
    as a boundary. *)
Lemma replace_word_start (n : nat) :
  forall s fuel i, length s <= n -> length s < fuel ->
  replace_loop fuel word_start_pattern (fun m => toUpperCase m) i s
  = capitalize_from is_separator (i =? 0) s.
Proof.
  induction n as [|n IH]; intros s fuel i Hn Hfuel.
  - destruct s; simpl in Hn; [|lia].
    apply replace_loop_empty. now rewrite match_at_word_start.
  - destruct s as [|c s];
      [apply replace_loop_empty; now rewrite match_at_word_start|].
    simpl in Hn, Hfuel.
    destruct (match_at word_start_pattern i (String c s)) as [m|] eqn:E.
    + destruct fuel as [|fuel]; [lia|].
      rewrite match_at_word_start in E.
      destruct ((i =? 0) && cls_az c) eqn:B.
      * (* a letter at the start of the string *)
        inversion E; subst m; clear E.
        apply andb_true_iff in B. destruct B as [Bi Bc].
        rewrite (replace_loop_hit _ _ _ _ _ (mkMatch i (String c "") None)).
        2: { rewrite match_at_word_start. now rewrite Bi, Bc. }
        2: { simpl. lia. }
        simpl. rewrite Bi, Bc. simpl. f_equal.
        rewrite IH by lia.
        rewrite (az_not_separator _ Bc).
        now replace (i + 1 =? 0) with false by (symmetry; apply Nat.eqb_neq; lia).
      * destruct (is_separator c) eqn:Sc; [|discriminate].
        destruct s as [|d s]; [discriminate|].
        destruct (cls_az d) eqn:Bd; [|discriminate].
        inversion E; subst m; clear E.
        rewrite (replace_loop_hit _ _ _ _ _
                   (mkMatch i (String c (String d "")) None)).
        2: { rewrite match_at_word_start. now rewrite B, Sc, Bd. }
        2: { simpl. lia. }
        simpl in Hn, Hfuel.
        simpl. rewrite B, Sc, Bd. simpl.
        rewrite (upper_separator _ Sc). do 2 f_equal.
        rewrite IH by lia.
        rewrite (az_not_separator _ Bd).
        now replace (i + 2 =? 0) with false by (symmetry; apply Nat.eqb_neq; lia).
    + rewrite (replace_loop_skip _ _ _ _ _ _ E).
      rewrite IH by lia.
      rewrite match_at_word_start in E.
      simpl. destruct ((i =? 0) && cls_az c); [discriminate|].
      f_equal.
      destruct (is_separator c); [|reflexivity].
      symmetry. apply capitalize_from_flag.
      destruct s as [|d s]; [reflexivity|].
      simpl. destruct (cls_az d); [discriminate | reflexivity].
Qed.

Lemma match_at_underscore (i : nat) (s : string) :
  match_at underscore_pattern i s =
  match s with
  | String c _ =>
      if is_underscore c then Some (mkMatch i (String c "") None) else None
  | EmptyString => None
  end.
Proof.
  unfold match_at, underscore_pattern, is_underscore.
  cbn -[Nat.sub take Ascii.eqb].
  destruct s as [|c s]; [reflexivity|].
  destruct ("_" =? c)%char; [|reflexivity].
  replace (i + 1 - i) with 1 by lia.
  now rewrite take_S, take_0.
Qed.

Lemma replace_underscore (n : nat) :
  forall s fuel i, length s <= n -> length s < fuel ->
  replace_loop fuel underscore_pattern (fun _ => " ") i s
  = JsString.map underscore_to_space s.
Proof.
  induction n as [|n IH]; intros s fuel i Hn Hfuel.
  - destruct s; simpl in Hn; [|lia].
    apply replace_loop_empty. now rewrite match_at_underscore.
  - destruct s as [|c s];
      [apply replace_loop_empty; now rewrite match_at_underscore|].
    simpl in Hn, Hfuel.
    destruct (match_at underscore_pattern i (String c s)) as [m|] eqn:E.
    + destruct fuel as [|fuel]; [lia|].
      rewrite (replace_loop_hit _ _ _ _ _ _ E).
      2: { rewrite match_at_underscore in E.
           destruct (is_underscore c); inversion E; simpl; lia. }
      rewrite match_at_underscore in E.
      unfold underscore_to_space. simpl.
      destruct (is_underscore c); inversion E; subst m; simpl.
      now rewrite IH by lia.
    + rewrite (replace_loop_skip _ _ _ _ _ _ E).
      rewrite IH by lia.
      rewrite match_at_underscore in E.
      unfold underscore_to_space. simpl.
      destruct (is_underscore c); [discriminate | reflexivity].
Qed.

Lemma length_capitalize_from (sep : ascii -> bool) (s : string) :
  forall b, length (capitalize_from sep b s) = length s.
Proof. induction s as [|c s IH]; intros b; simpl; [reflexivity | now rewrite IH]. Qed.

(** [formatEnumName] is the three passes of [humanize]; in particular no
    round of either replacement loop is cut short. *)
Lemma formatEnumName_humanize (name : string) :
  formatEnumName name = humanize name.
Proof.
  unfold formatEnumName, humanize, replace_all.
  rewrite (replace_word_start (length (toLowerCase name))) by lia.
  simpl (0 =? 0).
  now rewrite (replace_underscore
             (length (capitalize_from is_separator true (toLowerCase name)))) by lia.
Qed.


Lemma length_formatEnumName (name : string) :
  length (formatEnumName name) = length name.
Proof.
  rewrite formatEnumName_humanize. unfold humanize, toLowerCase.
  now rewrite length_string_map, length_capitalize_from, length_string_map.
Qed.

(** ** The directive pattern *)

Lemma span_word_spec (s : string) :
  forall tok rest, span_word s = (tok, rest) ->
  s = tok ++ rest /\ all_word tok = true /\ starts_with_word rest = false.
Proof.
  induction s as [|c s IH]; intros tok rest; simpl.
  - intros H; inversion H; subst; auto.
  - destruct (cls_word c) eqn:W.
    + destruct (span_word s) as [tok' rest'].
      intros H; inversion H; subst; clear H.
      destruct (IH _ _ eq_refl) as (-> & Ha & Hr).
      simpl. rewrite W. auto.
    + intros H; inversion H; subst; simpl. rewrite W. auto.
Qed.

Lemma span_word_append (tok post : string) :
  all_word tok = true -> starts_with_word post = false ->
  span_word (tok ++ post) = (tok, post).
Proof.
  intros Ha Hp. induction tok as [|c tok IH]; simpl in *.
  - destruct post as [|d post]; [reflexivity|].
    simpl in Hp |- *. now rewrite Hp.
  - apply andb_true_iff in Ha. destruct Ha as [Hc Ha].
    now rewrite Hc, (IH Ha).
Qed.

Lemma span_word_empty (s : string) :
  fst (span_word s) = "" <-> starts_with_word s = false.
Proof.
  destruct s as [|c s]; simpl; [tauto|].
  destruct (cls_word c); [|tauto].
  destruct (span_word s); simpl. split; discriminate.
Qed.

(** [\w+] before a continuation that cannot fail takes the longest run of
    word characters. *)
Lemma plus_word_greedy (s : string) :
  forall (i : nat) (cap : option string) (k : cont),
  (forall j t c, k j t c <> None) ->
  plus_class cls_word i s cap k =
  match span_word s with
  | (EmptyString, _) => None
  | (tok, rest) => k (i + length tok) rest cap
  end.
Proof.
  induction s as [|c s IH]; intros i cap k Hk; simpl; [reflexivity|].
  destruct (cls_word c) eqn:W; [|reflexivity].
  rewrite (IH _ _ _ Hk).
  destruct (span_word s) as [tok rest] eqn:Sp.
  destruct tok as [|d tok].
  - destruct (span_word_spec _ _ _ Sp) as (-> & _ & _).
    simpl. now rewrite Nat.add_1_r.
  - simpl length. rewrite <- !plus_n_Sm. simpl.
    destruct (k (S (S (i + length tok))) rest cap) eqn:K; [reflexivity|].
    now apply Hk in K.
Qed.

Lemma match_at_translate (i : nat) (s : string) :
  match_at translate_pattern i s =
  match strip_prefix directive s with
  | Some rest =>
      match fst (span_word rest) with
      | EmptyString => None
      | tok => Some (mkMatch i (directive ++ tok) (Some tok))
      end
  | None => None
  end.
Proof.
  unfold match_at, translate_pattern. cbn [run]. fold directive.
  destruct (strip_prefix directive s) as [rest|] eqn:P; [|reflexivity].
  apply strip_prefix_inv in P. subst s.
  rewrite plus_word_greedy by discriminate.
  destruct (span_word rest) as [tok post] eqn:Sp.
  destruct (span_word_spec _ _ _ Sp) as (-> & _ & _).
  destruct tok as [|c tok]; [reflexivity|].
  cbn [fst]. f_equal. f_equal.
  - replace (i + length directive + length (String c tok) - i)
      with (length (directive ++ String c tok))
      by (rewrite length_append; lia).
    rewrite <- append_assoc. apply take_append.
  - f_equal.
    replace (i + length directive + length (String c tok)
             - (i + length directive))
      with (length (String c tok)) by lia.
    apply take_append.
Qed.

Lemma match_at_translate_none (i : nat) (s : string) :
  match_at translate_pattern i s = None <-> directive_at s = false.
Proof.
  rewrite match_at_translate. unfold directive_at.
  destruct (strip_prefix directive s) as [rest|]; [|tauto].
  rewrite <- span_word_empty.
  destruct (fst (span_word rest)); split; congruence.
Qed.

Lemma directive_at_empty (k : nat) (s : string) :
  length s <= k -> directive_at (drop k s) = false.
Proof.
  intros H. assert (E : drop k s = "").
  { pose proof (length_drop k s) as L.
    destruct (drop k s); [reflexivity | simpl in L; lia]. }
  now rewrite E.
Qed.

(** A successful search: the comment splits around the first place where
    the marker is followed by a word character, and group 1 is the longest
    run of word characters there. *)
Lemma string_match_translate_some (text : string) (m : MatchResult) :
  string_match text translate_pattern = Some m ->
  exists pre tok post,
    text = pre ++ directive ++ tok ++ post /\
    first_directive_at (length pre) text /\
    tok <> "" /\ all_word tok = true /\ starts_with_word post = false /\
    m = mkMatch (length pre) (directive ++ tok) (Some tok).
Proof.
  unfold string_match. intros H.
  destruct (exec_from_first _ _ _ _ H) as (n & Hn & Hi & Hm & Hk).
  simpl in Hi, Hm, Hk.
  pose proof Hm as Hm'. rewrite match_at_translate in Hm'.
  destruct (strip_prefix directive (drop n text)) as [rest|] eqn:P;
    [|discriminate].
  apply strip_prefix_inv in P.
  destruct (span_word rest) as [tok post] eqn:Sp.
  destruct (span_word_spec _ _ _ Sp) as (-> & Ha & Hp).
  simpl in Hm'.
  assert (Hlen : length (take n text) = n) by now apply length_take.
  exists (take n text), tok, post.
  rewrite Hlen, <- P, take_drop.
  repeat split; auto.
  - apply not_false_iff_true. intros F.
    apply match_at_translate_none with (i := n) in F. congruence.
  - intros k Hlt. apply (match_at_translate_none k). now apply Hk.
  - intros ->. discriminate.
  - destruct tok; [discriminate|]. now inversion Hm'.
Qed.

Lemma string_match_translate_none (text : string) :
  string_match text translate_pattern = None <->
  forall k, directive_at (drop k text) = false.
Proof.
  unfold string_match. split.
  - intros H k. destruct (Nat.le_gt_cases k (length text)) as [L|L].
    + apply (match_at_translate_none (0 + k)).
      now apply exec_from_none.
    + apply directive_at_empty. lia.
  - intros H. destruct (exec_from translate_pattern 0 text) as [m|] eqn:E;
      [|reflexivity].
    destruct (exec_from_first _ _ _ _ E) as (n & _ & _ & Hm & _).
    assert (X : match_at translate_pattern (0 + n) (drop n text) = None)
      by (apply match_at_translate_none, H).
    congruence.
Qed.

(** Conversely, the first directive of a comment is the one found. *)
Lemma string_match_translate_first (pre tok post : string) :
  tok <> "" -> all_word tok = true -> starts_with_word post = false ->
  (forall k, k < length pre ->
             directive_at (drop k (pre ++ directive ++ tok ++ post)) = false) ->
  string_match (pre ++ directive ++ tok ++ post) translate_pattern
  = Some (mkMatch (length pre) (directive ++ tok) (Some tok)).
Proof.
  intros Hne Ha Hp Hk. unfold string_match.
  apply exec_from_found with (n := length pre).
  - rewrite length_append. lia.
  - rewrite drop_append, match_at_translate, strip_prefix_append.
    rewrite (span_word_append _ _ Ha Hp). simpl.
    destruct tok; [congruence | reflexivity].
  - intros k Hlt. apply match_at_translate_none. now apply Hk.
Qed.

(** Group 1 takes part in every match of the directive pattern. *)
Lemma translate_match_group (text : string) (m : MatchResult) :
  string_match text translate_pattern = Some m -> group1 m <> None.
Proof.
  intros H. destruct (string_match_translate_some _ _ H)
    as (pre & tok & post & _ & _ & _ & _ & _ & ->).
  discriminate.
Qed.

(** ** The two loops and the two methods *)

Lemma fold_generateEnum_step (this : EnumGenerator)
    (descriptor : EnumDescriptorProto.t) (l : list EnumObjectValue.t) :
  forall b,
  fold_left (generateEnum_step this descriptor) l b
  = (b ++ List.map (member_of this descriptor) l)%list.
Proof.
  induction l as [|ev l IH]; intros b; simpl.
  - now rewrite app_nil_r.
  - rewrite IH. unfold generateEnum_step, TypescriptEnumBuilder.add, member_of.
    now rewrite <- app_assoc.
Qed.

Lemma fold_generateTranslationTable_step (this : EnumGenerator)
    (descriptor : EnumDescriptorProto.t) (l : list EnumObjectValue.t) :
  forall acc,
  List.map (fun t => ts.createObjectLiteral
                       [ts.createPropertyAssignment "id" (id t);
                        ts.createPropertyAssignment "name" (name t)])
           (fold_left (generateTranslationTable_step this descriptor) l acc)
  = (List.map (fun t => ts.createObjectLiteral
                          [ts.createPropertyAssignment "id" (id t);
                           ts.createPropertyAssignment "name" (name t)]) acc
     ++ List.map (entry_of this descriptor) l)%list.
Proof.
  induction l as [|ev l IH]; intros acc; simpl.
  - now rewrite app_nil_r.
  - rewrite IH. unfold generateTranslationTable_step.
    rewrite map_app, <- app_assoc. reflexivity.
Qed.

Lemma update_nth_last {A : Type} (f : A -> A) (l : list A) (x : A) :
  update_nth (List.length l) f (l ++ [x])%list = (l ++ [f x])%list.
Proof. induction l as [|y l IH]; simpl; [reflexivity | now rewrite IH]. Qed.

Lemma update_nth_other {A : Type} (f : A -> A) (l : list A) :
  forall i j, i <> j -> nth_error (update_nth i f l) j = nth_error l j.
Proof.
  induction l as [|y l IH]; intros i j Hne; simpl.
  - reflexivity.
  - destruct i as [|i], j as [|j]; simpl; try reflexivity; try congruence.
    apply IH. congruence.
Qed.

Lemma update_nth_same {A : Type} (f : A -> A) (l : list A) :
  forall i x, nth_error l i = Some x ->
  nth_error (update_nth i f l) i = Some (f x).
Proof.
  induction l as [|y l IH]; intros [|i] x; simpl; try discriminate.
  - intros H; now inversion H.
  - apply IH.
Qed.

Lemma nth_error_last {A : Type} (l : list A) (x : A) :
  nth_error (l ++ [x])%list (List.length l) = Some x.
Proof. induction l as [|y l IH]; simpl; [reflexivity | exact IH]. Qed.

Lemma nth_error_before {A : Type} (l : list A) (x : A) (i : nat) :
  i < List.length l -> nth_error (l ++ [x])%list i = nth_error l i.
Proof. intros H. now apply nth_error_app1. Qed.

(** The whole effect of [generateEnum]. *)
Lemma generateEnum_run (this : EnumGenerator)
    (descriptor : EnumDescriptorProto.t) (w : World) :
  generateEnum this descriptor w =
  (List.length (store w),
   mkWorld
     (store w ++
      [ts.mkNode
         (ts.EnumDeclaration [ts.ExportKeyword] (imports_type this descriptor)
            (List.map (member_of this descriptor)
                      (listEnumValues this descriptor)))
         (type_comment_block this descriptor)])%list
     (source_statements w ++ [List.length (store w)])%list
     (calls w ++
      [call_addStatement (List.length (store w));
       call_addCommentsForDescriptor (List.length (store w)) descriptor
                                     appendToLeadingBlock])%list).
Proof.
  unfold generateEnum, bind, TypescriptEnumBuilder.build, new_node,
    addStatement, addCommentsForDescriptor, ret.
  simpl. rewrite update_nth_last, fold_generateEnum_step, <- app_assoc.
  reflexivity.
Qed.

(** The whole effect of [generateTranslationTable]. *)
Lemma generateTranslationTable_run (this : EnumGenerator)
    (descriptor : EnumDescriptorProto.t) (w : World) :
  generateTranslationTable this descriptor w =
  (tt,
   mkWorld
     (store w ++
      [ts.mkNode
         (translation_statement
            (interpolate (EnumDescriptorProto.name descriptor) ++ "Translation")
            (List.map (entry_of this descriptor)
                      (listEnumValues this descriptor)))
         []])%list
     (source_statements w ++ [List.length (store w)])%list
     (calls w ++ [call_addStatement (List.length (store w))])%list).
Proof.
  unfold generateTranslationTable, bind, new_node, addStatement.
  simpl. rewrite fold_generateTranslationTable_step. reflexivity.
Qed.

Lemma find_value_none (descriptor : EnumDescriptorProto.t)
    (ev : EnumObjectValue.t) :
  (forall v, In v (EnumDescriptorProto.value descriptor) ->
             EnumValueDescriptorProto.number v
             <> Some (EnumObjectValue.number ev)) ->
  find_value descriptor ev = None.
Proof.
  unfold find_value. intros H.
  induction (EnumDescriptorProto.value descriptor) as [|v l IH]; simpl.
  - reflexivity.
  - destruct (EnumValueDescriptorProto.number v) as [n|] eqn:N.
    + destruct (Z.eqb_spec n (EnumObjectValue.number ev)) as [->|_].
      * exfalso. apply (H v); simpl; auto.
      * apply IH. intros u Hu. apply H. now right.
    + apply IH. intros u Hu. apply H. now right.
Qed.

Lemma find_value_first (descriptor : EnumDescriptorProto.t)
    (ev : EnumObjectValue.t) (before after : list EnumValueDescriptorProto.t)
    (v : EnumValueDescriptorProto.t) :
  EnumDescriptorProto.value descriptor = (before ++ v :: after)%list ->
  EnumValueDescriptorProto.number v = Some (EnumObjectValue.number ev) ->
  (forall u, In u before ->
             EnumValueDescriptorProto.number u
             <> Some (EnumObjectValue.number ev)) ->
  find_value descriptor ev = Some v.
Proof.
  unfold find_value. intros -> Hv Hb.
  induction before as [|u l IH]; simpl.
  - now rewrite Hv, Z.eqb_refl.
  - destruct (EnumValueDescriptorProto.number u) as [n|] eqn:N.
    + destruct (Z.eqb_spec n (EnumObjectValue.number ev)) as [->|_].
      * exfalso. apply (Hb u); simpl; auto.
      * apply IH. intros x Hx. apply Hb. now right.
    + apply IH. intros x Hx. apply Hb. now right.
Qed.

Lemma translatedName_matched (this : EnumGenerator)
    (descriptor : EnumDescriptorProto.t) (ev : EnumObjectValue.t) :
  translatedName this descriptor ev =
  match matched_comment this descriptor ev with
  | Some text =>
      if truthy text then
        match string_match text translate_pattern with
        | Some m => element1 m
        | None => formatEnumName (EnumObjectValue.name ev)
        end
      else formatEnumName (EnumObjectValue.name ev)
  | None => formatEnumName (EnumObjectValue.name ev)
  end.
Proof. reflexivity. Qed.

Lemma translatedName_first_directive (this : EnumGenerator)
    (descriptor : EnumDescriptorProto.t) (ev : EnumObjectValue.t)
    (pre tok post : string) :
  matched_comment this descriptor ev = Some (pre ++ directive ++ tok ++ post) ->
  tok <> "" -> all_word tok = true -> starts_with_word post = false ->
  first_directive_at (length pre) (pre ++ directive ++ tok ++ post) ->
  translatedName this descriptor ev = tok.
Proof.
  intros Hc Hne Ha Hp [_ Hk].
  rewrite translatedName_matched, Hc.
  rewrite (string_match_translate_first _ _ _ Hne Ha Hp Hk).
  destruct pre; reflexivity.
Qed.

Lemma translatedName_no_directive (this : EnumGenerator)
    (descriptor : EnumDescriptorProto.t) (ev : EnumObjectValue.t)
    (text : string) :
  matched_comment this descriptor ev = Some text ->
  (forall k, directive_at (drop k text) = false) ->
  translatedName this descriptor ev = formatEnumName (EnumObjectValue.name ev).
Proof.
  intros Hc Hk. rewrite translatedName_matched, Hc.
  apply string_match_translate_none in Hk. rewrite Hk.
  now destruct (truthy text).
Qed.

(** The first directive of a comment, found from its offset alone. *)
Lemma first_directive_split (n : nat) (text : string) :
  first_directive_at n text ->
  exists pre tok post,
    length pre = n /\
    text = pre ++ directive ++ tok ++ post /\
    tok <> "" /\ all_word tok = true /\ starts_with_word post = false.
Proof.
  intros [Hd Hk]. unfold directive_at in Hd.
  destruct (strip_prefix directive (drop n text)) as [rest|] eqn:P;
    [|discriminate].
  apply strip_prefix_inv in P.
  destruct (span_word rest) as [tok post] eqn:Sp.
  destruct (span_word_spec _ _ _ Sp) as (-> & Ha & Hp).
  assert (Hn : n <= length text).
  { pose proof (length_drop n text) as L. rewrite P in L.
    simpl in L. lia. }
  exists (take n text), tok, post.
  assert (Hlen : length (take n text) = n) by now apply length_take.
  repeat split; auto.
  - now rewrite <- P, take_drop.
  - intros ->. destruct post as [|c post]; simpl in *; congruence.
Qed.

(* ------------------------------------------------------------------ *)
(** * The claims *)

(** C1: for every descriptor and catalog (the non-empty ones included),
    [generateEnum] leaves an exported declaration with one member per
    catalog entry, in catalog order, with the entry's name and number, and
    [generateTranslationTable] leaves an array with one element per catalog
    entry, in catalog order; both are as long as the catalog. *)
Theorem C1_outputs_follow_catalog (this : EnumGenerator)
    (descriptor : EnumDescriptorProto.t) (w : World) :
  let catalog := listEnumValues this descriptor in
  (exists members,
     enum_declared (snd (generateEnum this descriptor w))
                   (fst (generateEnum this descriptor w))
                   (imports_type this descriptor) members /\
     List.length members = List.length catalog /\
     List.map (fun m => (ts.member_name m, ts.member_value m)) members
     = List.map (fun ev => (EnumObjectValue.name ev, EnumObjectValue.number ev))
                catalog) /\
  (exists table elements r,
     source_statements (snd (generateTranslationTable this descriptor w))
     = (source_statements w ++ [r])%list /\
     deref (snd (generateTranslationTable this descriptor w)) r
     = Some (ts.mkNode (translation_statement table elements) []) /\
     List.length elements = List.length catalog /\
     elements = List.map (entry_of this descriptor) catalog).
Proof.
  intros catalog. split.
  - exists (List.map (member_of this descriptor) catalog).
    rewrite generateEnum_run. simpl. repeat split.
    + exists (type_comment_block this descriptor).
      unfold deref. simpl. apply nth_error_last.
    + apply List.length_map.
    + rewrite map_map. reflexivity.
  - rewrite generateTranslationTable_run. simpl.
    eexists _, _, _. repeat split.
    + unfold deref. simpl. apply nth_error_last.
    + apply List.length_map.
Qed.








(** Outside the plain names the pattern's [\s] counts: in [a<TAB>b] the
    letter b follows a tab, which is white space but not the space U+0020,
    and is upper-cased as well. *)
Remark formatEnumName_after_tab :
  formatEnumName Sample.tab_name = String "A" (String "009" (String "B" "")) /\
  humanize_as_worded Sample.tab_name
  = String "A" (String "009" (String "b" "")).
Proof. split; reflexivity. Qed.

(** C3 (as amended): when the first place of the matched comment where
    [@Translate: ] is followed by a word character reads [@Translate: Foo],
    with Foo the whole run of word characters there, the label is exactly
    Foo, whatever the humanized name is; when the comment has no such place
    (so for [@Translate:] without a token) and when there is no comment,
    the label is the humanized member name, which is empty only for an
    empty member name. *)
Theorem C3_label_from_first_directive (this : EnumGenerator)
    (descriptor : EnumDescriptorProto.t) (ev : EnumObjectValue.t) :
  (forall pre tok post,
     matched_comment this descriptor ev
     = Some (pre ++ "@Translate: " ++ tok ++ post) ->
     tok <> "" -> all_word tok = true -> starts_with_word post = false ->
     first_directive_at (String.length pre)
                        (pre ++ "@Translate: " ++ tok ++ post) ->
     translatedName this descriptor ev = tok) /\
  (forall text,
     matched_comment this descriptor ev = Some text ->
     (forall k, directive_at (drop k text) = false) ->
     translatedName this descriptor ev
     = formatEnumName (EnumObjectValue.name ev)) /\
  (matched_comment this descriptor ev = None ->
   translatedName this descriptor ev
   = formatEnumName (EnumObjectValue.name ev)) /\
  (EnumObjectValue.name ev <> "" ->
   formatEnumName (EnumObjectValue.name ev) <> "").
Proof.
  repeat split.
  - intros pre tok post. apply translatedName_first_directive.
  - intros text. apply translatedName_no_directive.
  - intros H. now rewrite translatedName_matched, H.
  - intros Hne E. apply Hne.
    pose proof (length_formatEnumName (EnumObjectValue.name ev)) as L.
    rewrite E in L. simpl in L.
    destruct (EnumObjectValue.name ev); [reflexivity | discriminate].
Qed.

(** C3 at the scenario of the spec and at the two edge cases: the member
    READY_TO_START with the comment [@Translate: GoTime] is labelled
    GoTime; with the comment [@Translate:] it is labelled Ready To Start;
    the synthetic member, which has no comment, is labelled Unspecified. *)
Lemma C3_label_from_first_directive_witness :
  translatedName (Sample.commented "@Translate: GoTime") Sample.status
                 Sample.ready = "GoTime" /\
  translatedName (Sample.commented "@Translate:") Sample.status Sample.ready
  = "Ready To Start" /\
  translatedName (Sample.commented "@Translate:") Sample.status
                 Sample.unspecified = "Unspecified" /\
  formatEnumName "READY_TO_START" <> "".
Proof.
  pose proof (C3_label_from_first_directive
                (Sample.commented "@Translate: GoTime") Sample.status
                Sample.ready) as (H1 & _).
  pose proof (C3_label_from_first_directive
                (Sample.commented "@Translate:") Sample.status
                Sample.ready) as (_ & H2 & _ & H4).
  pose proof (C3_label_from_first_directive
                (Sample.commented "@Translate:") Sample.status
                Sample.unspecified) as (_ & _ & H3 & _).
  split; [|split; [|split]].
  - apply (H1 "" "GoTime" ""); try reflexivity; try discriminate.
    split; [reflexivity | intros k Hk; inversion Hk].
  - apply (H2 "@Translate:"); [reflexivity|].
    intros k. do 12 (destruct k as [|k]; [reflexivity|]). reflexivity.
  - apply H3. reflexivity.
  - apply H4. discriminate.
Defined.

(** C3, the claim as worded fails: a comment can contain
    [@Translate: Foo] and give another label, when an earlier directive
    comes first or when the word goes on after Foo. *)
Lemma C3_contains_is_not_enough :
  (matched_comment (Sample.commented "@Translate: Bar, @Translate: Foo")
                   Sample.status Sample.ready
   = Some "@Translate: Bar, @Translate: Foo" /\
   contains "@Translate: Foo" "@Translate: Bar, @Translate: Foo" /\
   translatedName (Sample.commented "@Translate: Bar, @Translate: Foo")
                  Sample.status Sample.ready = "Bar") /\
  (matched_comment (Sample.commented "@Translate: Foobar")
                   Sample.status Sample.ready
   = Some "@Translate: Foobar" /\
   contains "@Translate: Foo" "@Translate: Foobar" /\
   translatedName (Sample.commented "@Translate: Foobar")
                  Sample.status Sample.ready = "Foobar").
Proof.
  repeat split.
  - now exists "@Translate: Bar, ", "".
  - now exists "", "bar".
Qed.

(** C4: a catalog entry whose number no declared member has gets, as the
    comment of its member, the fixed notice of a generated synthetic value
    that exists because every enum needs a 0 value; the notice is the same
    text for all such entries. *)
Theorem C4_synthetic_comment (this : EnumGenerator)
    (descriptor : EnumDescriptorProto.t) (w : World)
    (i : nat) (ev : EnumObjectValue.t) :
  nth_error (listEnumValues this descriptor) i = Some ev ->
  (forall v, In v (EnumDescriptorProto.value descriptor) ->
             EnumValueDescriptorProto.number v
             <> Some (EnumObjectValue.number ev)) ->
  exists members m,
    enum_declared (snd (generateEnum this descriptor w))
                  (fst (generateEnum this descriptor w))
                  (imports_type this descriptor) members /\
    nth_error members i = Some m /\
    ts.member_name m = EnumObjectValue.name ev /\
    ts.member_value m = EnumObjectValue.number ev /\
    ts.member_comment m = Some synthetic_comment /\
    synthetic_comment
    = "@generated synthetic value - protobuf-ts requires all enums to have a 0 value".
Proof.
  intros Hi Hnone.
  exists (List.map (member_of this descriptor) (listEnumValues this descriptor)),
         (member_of this descriptor ev).
  rewrite generateEnum_run. simpl. repeat split.
  - exists (type_comment_block this descriptor).
    unfold deref. simpl. apply nth_error_last.
  - now apply map_nth_error.
  - unfold member_of. simpl. now rewrite (find_value_none _ _ Hnone).
Qed.

Lemma C4_synthetic_comment_witness :
  exists members m,
    enum_declared
      (snd (generateEnum Sample.alias_documented Sample.status
                         Sample.empty_world))
      (fst (generateEnum Sample.alias_documented Sample.status
                         Sample.empty_world))
      "Status" members /\
    nth_error members 0 = Some m /\
    ts.member_name m = "UNSPECIFIED" /\
    ts.member_value m = 0%Z /\
    ts.member_comment m = Some synthetic_comment /\
    synthetic_comment
    = "@generated synthetic value - protobuf-ts requires all enums to have a 0 value".
Proof.
  apply (C4_synthetic_comment Sample.alias_documented Sample.status
                              Sample.empty_world 0 Sample.unspecified).
  - reflexivity.
  - intros v [<-|[<-|[<-|[]]]]; discriminate.
Defined.

(** C5: the declared member that goes with a catalog entry is the first
    one, in declaration order, whose number equals the entry's; when there
    is one, the comment of the emitted member is that member's leading
    comment block as the comment service gives it, an absent block
    included. *)
Theorem C5_comment_of_first_match (this : EnumGenerator)
    (descriptor : EnumDescriptorProto.t) (w : World)
    (i : nat) (ev : EnumObjectValue.t)
    (before after : list EnumValueDescriptorProto.t)
    (v : EnumValueDescriptorProto.t) :
  nth_error (listEnumValues this descriptor) i = Some ev ->
  EnumDescriptorProto.value descriptor = (before ++ v :: after)%list ->
  EnumValueDescriptorProto.number v = Some (EnumObjectValue.number ev) ->
  (forall u, In u before ->
             EnumValueDescriptorProto.number u
             <> Some (EnumObjectValue.number ev)) ->
  find_value descriptor ev = Some v /\
  exists members m,
    enum_declared (snd (generateEnum this descriptor w))
                  (fst (generateEnum this descriptor w))
                  (imports_type this descriptor) members /\
    nth_error members i = Some m /\
    ts.member_name m = EnumObjectValue.name ev /\
    ts.member_comment m = getCommentBlock this v true.
Proof.
  intros Hi Hsplit Hv Hbefore.
  pose proof (find_value_first _ _ _ _ _ Hsplit Hv Hbefore) as F.
  split; [exact F|].
  exists (List.map (member_of this descriptor) (listEnumValues this descriptor)),
         (member_of this descriptor ev).
  rewrite generateEnum_run. simpl. repeat split.
  - exists (type_comment_block this descriptor).
    unfold deref. simpl. apply nth_error_last.
  - now apply map_nth_error.
  - unfold member_of. simpl. now rewrite F.
Qed.

(** Two declared members have the number 1; the entry READY_TO_START = 1
    takes the comment of the first, which has none, and not the comment of
    the documented alias. *)
Lemma C5_comment_of_first_match_witness :
  find_value Sample.status Sample.ready = Some Sample.ready_decl /\
  exists members m,
    enum_declared
      (snd (generateEnum Sample.alias_documented Sample.status
                         Sample.empty_world))
      (fst (generateEnum Sample.alias_documented Sample.status
                         Sample.empty_world))
      "Status" members /\
    nth_error members 1 = Some m /\
    ts.member_name m = "READY_TO_START" /\
    ts.member_comment m = None.
Proof.
  apply (C5_comment_of_first_match Sample.alias_documented Sample.status
           Sample.empty_world 1 Sample.ready []
           [Sample.go_decl; Sample.done_decl] Sample.ready_decl).
  - reflexivity.
  - reflexivity.
  - reflexivity.
  - intros u [].
Defined.

(** C6, the code at a descriptor without a name: the method does return,
    and the one statement it adds declares [undefinedTranslation]; the
    fallback name SpectralBot shows only inside the elements. *)
Theorem C6_table_name_without_descriptor_name (this : EnumGenerator)
    (values : list EnumValueDescriptorProto.t) (w : World) :
  let descriptor := EnumDescriptorProto.make None values in
  generateTranslationTable this descriptor w =
  (tt,
   mkWorld
     (store w ++
      [ts.mkNode
         (translation_statement "undefinedTranslation"
            (List.map
               (fun ev =>
                  ts.ObjectLiteralExpression
                    [("id", ts.PropertyAccessExpression
                              (ts.Identifier "SpectralBot")
                              (EnumObjectValue.name ev));
                     ("name", ts.StringLiteral
                                (translatedName this descriptor ev))])
               (listEnumValues this descriptor)))
         []])%list
     (source_statements w ++ [List.length (store w)])%list
     (calls w ++ [call_addStatement (List.length (store w))])%list) /\
  "undefinedTranslation" <> "SpectralBot" ++ "Translation".
Proof.
  intros descriptor. split; [|discriminate].
  apply generateTranslationTable_run.
Qed.

(** C7: for an enum called [n], [generateTranslationTable] makes exactly
    one new statement and puts it at the end of the file: an exported
    [const] declaration of the variable [n ++ "Translation"] whose value is
    an array literal with, per catalog entry, an object literal of the
    properties [id], the member name accessed on the identifier [n], and
    [name], a string literal holding the label. *)
Theorem C7_translation_table_statement (this : EnumGenerator)
    (descriptor : EnumDescriptorProto.t) (w : World) (n : string) :
  EnumDescriptorProto.name descriptor = Some n ->
  let w' := snd (generateTranslationTable this descriptor w) in
  let r := List.length (store w) in
  source_statements w' = (source_statements w ++ [r])%list /\
  store w' =
  (store w ++
   [ts.mkNode
      (ts.VariableStatement [ts.ExportKeyword]
         [ts.mkVariableDeclaration
            (ts.Identifier (n ++ "Translation"))
            (ts.ArrayLiteralExpression
               (List.map
                  (fun ev =>
                     ts.ObjectLiteralExpression
                       [("id", ts.PropertyAccessExpression
                                 (ts.Identifier n) (EnumObjectValue.name ev));
                        ("name", ts.StringLiteral
                                   (translatedName this descriptor ev))])
                  (listEnumValues this descriptor))
               true)]
         ts.Const)
      []])%list.
Proof.
  intros Hn w' r. subst w' r.
  rewrite generateTranslationTable_run. simpl.
  unfold translation_statement, entry_of, name_or_fallback.
  rewrite Hn. simpl. split; reflexivity.
Qed.

(** The scenario of the spec: the table of [Status] is
    [StatusTranslation], with the entries Unspecified, Ready To Start and
    Done. *)
Lemma C7_translation_table_statement_witness :
  source_statements
    (snd (generateTranslationTable Sample.alias_documented Sample.status
                                   Sample.empty_world)) = [0] /\
  store (snd (generateTranslationTable Sample.alias_documented Sample.status
                                       Sample.empty_world)) =
  [ts.mkNode
     (ts.VariableStatement [ts.ExportKeyword]
        [ts.mkVariableDeclaration
           (ts.Identifier "StatusTranslation")
           (ts.ArrayLiteralExpression
              [ts.ObjectLiteralExpression
                 [("id", ts.PropertyAccessExpression
                           (ts.Identifier "Status") "UNSPECIFIED");
                  ("name", ts.StringLiteral "Unspecified")];
               ts.ObjectLiteralExpression
                 [("id", ts.PropertyAccessExpression
                           (ts.Identifier "Status") "READY_TO_START");
                  ("name", ts.StringLiteral "Ready To Start")];
               ts.ObjectLiteralExpression
                 [("id", ts.PropertyAccessExpression
                           (ts.Identifier "Status") "DONE");
                  ("name", ts.StringLiteral "Done")]]
              true)]
        ts.Const)
     []].
Proof.
  exact (C7_translation_table_statement Sample.alias_documented Sample.status
           Sample.empty_world "Status" eq_refl).
Defined.

(** C8: the label follows the first place of the comment, and only that
    one, where the marker [@Translate: ], in exactly this spelling, is
    followed by a word character; the token is the run of word characters
    there (letters, digits, underscore), never empty and never longer than
    the run, and it becomes the label as it stands.  A marker in another
    case is not a directive. *)
Theorem C8_first_directive_verbatim (this : EnumGenerator)
    (descriptor : EnumDescriptorProto.t) (ev : EnumObjectValue.t)
    (text : string) (n : nat) :
  matched_comment this descriptor ev = Some text ->
  first_directive_at n text ->
  (exists pre tok post,
     String.length pre = n /\
     text = pre ++ "@Translate: " ++ tok ++ post /\
     tok <> "" /\ all_word tok = true /\ starts_with_word post = false /\
     translatedName this descriptor ev = tok) /\
  string_match "@translate: Foo" translate_pattern = None /\
  string_match "@TRANSLATE: Foo" translate_pattern = None.
Proof.
  intros Hc Hfirst. split; [|split; reflexivity].
  destruct (first_directive_split _ _ Hfirst)
    as (pre & tok & post & Hlen & Htext & Hne & Ha & Hp).
  exists pre, tok, post. repeat split; auto.
  subst text n.
  now apply (translatedName_first_directive this descriptor ev pre tok post).
Qed.

(** A comment with a lower-case marker, a marker without a token and two
    directives: the label is the token of the first directive, at offset
    29, with its underscore and digit kept and the hyphen left out. *)
Lemma C8_first_directive_verbatim_witness :
  (exists pre tok post,
     String.length pre = 29 /\
     "x @translate: a, @Translate: @Translate: go_2-day @Translate: Foo"
     = pre ++ "@Translate: " ++ tok ++ post /\
     tok <> "" /\ all_word tok = true /\ starts_with_word post = false /\
     translatedName
       (Sample.commented
          "x @translate: a, @Translate: @Translate: go_2-day @Translate: Foo")
       Sample.status Sample.ready = tok) /\
  string_match "@translate: Foo" translate_pattern = None /\
  string_match "@TRANSLATE: Foo" translate_pattern = None.
Proof.
  apply (C8_first_directive_verbatim
           (Sample.commented
              "x @translate: a, @Translate: @Translate: go_2-day @Translate: Foo")
           Sample.status Sample.ready).
  - reflexivity.
  - split; [reflexivity|].
    intros k Hk.
    do 29 (destruct k as [|k]; [reflexivity|]). lia.
Defined.

(** C9: [generateEnum] makes the exported declaration as a new object and
    then makes two calls, in this order: [addStatement] puts the object at
    the end of the file's statements, and only then
    [addCommentsForDescriptor] is called on the same object, in the mode
    that appends to the leading comment block; so the documentation of the
    type ends behind the leading comments the object had when it was added
    to the file, none of which is dropped.  The result is the reference of
    that object, the one the file holds.  No other object and no other
    statement of the file changes. *)
Theorem C9_statement_added_then_documented (this : EnumGenerator)
    (descriptor : EnumDescriptorProto.t) (w : World) :
  let r := fst (generateEnum this descriptor w) in
  let final := snd (generateEnum this descriptor w) in
  r = List.length (store w) /\
  deref w r = None /\
  calls final =
  (calls w ++
   [call_addStatement r;
    call_addCommentsForDescriptor r descriptor appendToLeadingBlock])%list /\
  source_statements final = (source_statements w ++ [r])%list /\
  (exists built members,
     deref (snd (addStatement r
                   (snd (TypescriptEnumBuilder.build
                           members (imports_type this descriptor)
                           [ts.ExportKeyword] w)))) r = Some built /\
     ts.statement built
     = ts.EnumDeclaration [ts.ExportKeyword] (imports_type this descriptor)
                          members /\
     deref final r
     = Some (ts.mkNode (ts.statement built)
               (ts.leadingComments built
                ++ type_comment_block this descriptor)%list)) /\
  (forall r', r' <> r -> deref final r' = deref w r') /\
  (forall (w0 : World) (r0 : ref) (node : ts.Node),
     deref w0 r0 = Some node ->
     deref (snd (addCommentsForDescriptor this r0 descriptor
                                          appendToLeadingBlock w0)) r0
     = Some (ts.mkNode (ts.statement node)
               (ts.leadingComments node
                ++ type_comment_block this descriptor)%list) /\
     deref (snd (addCommentsForDescriptor this r0 descriptor
                                          replaceLeadingBlock w0)) r0
     = Some (ts.mkNode (ts.statement node)
               (type_comment_block this descriptor))).
Proof.
  intros r final. subst r final.
  rewrite generateEnum_run.
  unfold TypescriptEnumBuilder.build, new_node, addStatement,
    addCommentsForDescriptor, deref.
  cbn [fst snd store source_statements calls].
  split; [reflexivity|].
  split; [apply nth_error_None; lia|].
  split; [reflexivity|].
  split; [reflexivity|].
  split.
  { eexists _, (List.map (member_of this descriptor)
                         (listEnumValues this descriptor)).
    split; [apply nth_error_last|]. split; [reflexivity|].
    apply nth_error_last. }
  split.
  - intros r' Hr.
    destruct (Nat.lt_ge_cases r' (List.length (store w))) as [L|G].
    + now apply nth_error_before.
    + assert (N : nth_error (store w) r' = None) by now apply nth_error_None.
      rewrite N. apply nth_error_None. rewrite length_app. simpl. lia.
  - intros w0 r0 node H. split.
    + now apply (update_nth_same (append_comment (typeComment this descriptor))).
    + now apply (update_nth_same (replace_comment (typeComment this descriptor))).
Qed.

(** C9 on a file that holds a statement with a leading comment already:
    the new declaration becomes statement 1, the returned reference is 1,
    the two calls are logged in their order behind the earlier one, the
    type's comment is attached to the new object, the old object is as it
    was, and a comment an object has is kept when a further one is
    appended. *)
Lemma C9_statement_added_then_documented_witness :
  let w :=
    mkWorld [ts.mkNode (ts.EnumDeclaration [] "Other" []) ["kept"]] [0]
            [call_addStatement 0] in
  fst (generateEnum Sample.alias_documented Sample.status w) = 1 /\
  calls (snd (generateEnum Sample.alias_documented Sample.status w))
  = [call_addStatement 0; call_addStatement 1;
     call_addCommentsForDescriptor 1 Sample.status appendToLeadingBlock] /\
  source_statements (snd (generateEnum Sample.alias_documented Sample.status w))
  = [0; 1] /\
  deref (snd (generateEnum Sample.alias_documented Sample.status w)) 0
  = deref w 0 /\
  option_map ts.leadingComments
    (deref (snd (addCommentsForDescriptor Sample.alias_documented 0
                   Sample.status appendToLeadingBlock w)) 0)
  = Some ["kept"; "The state of a job."].
Proof.
  intros w.
  pose proof (C9_statement_added_then_documented
                Sample.alias_documented Sample.status w)
    as (Hr & _ & Hcalls & Hfile & _ & Hframe & Hmode).
  split; [|split; [|split; [|split]]].
  - exact Hr.
  - exact Hcalls.
  - exact Hfile.
  - apply (Hframe 0). discriminate.
  - exact (f_equal (option_map ts.leadingComments)
                   (proj1 (Hmode w 0 _ eq_refl))).
Defined.

(** C10: in every element the [id] is the member name accessed on the
    identifier that is the descriptor's name when there is one and the
    literal SpectralBot when there is none; the variable of the table gets
    no such fallback: its name is the descriptor's name put into the
    template before [Translation], where a missing name reads
    [undefined]. *)
Theorem C10_fallback_only_in_member_references (this : EnumGenerator)
    (descriptor : EnumDescriptorProto.t) (w : World) :
  let enum_identifier :=
    match EnumDescriptorProto.name descriptor with
    | Some n => n
    | None => "SpectralBot"
    end in
  let table_identifier :=
    match EnumDescriptorProto.name descriptor with
    | Some n => n ++ "Translation"
    | None => "undefinedTranslation"
    end in
  store (snd (generateTranslationTable this descriptor w)) =
  (store w ++
   [ts.mkNode
      (ts.VariableStatement [ts.ExportKeyword]
         [ts.mkVariableDeclaration
            (ts.Identifier table_identifier)
            (ts.ArrayLiteralExpression
               (List.map
                  (fun ev =>
                     ts.ObjectLiteralExpression
                       [("id", ts.PropertyAccessExpression
                                 (ts.Identifier enum_identifier)
                                 (EnumObjectValue.name ev));
                        ("name", ts.StringLiteral
                                   (translatedName this descriptor ev))])
                  (listEnumValues this descriptor))
               true)]
         ts.Const)
      []])%list.
Proof.
  intros enum_identifier table_identifier.
  subst enum_identifier table_identifier.
  rewrite generateTranslationTable_run. simpl.
  unfold translation_statement, entry_of, name_or_fallback, interpolate.
  destruct (EnumDescriptorProto.name descriptor); reflexivity.
Qed.

(** ** The scenario of the spec, run *)

Example scenario_declaration :
  generateEnum Sample.alias_documented Sample.status Sample.empty_world =
  (0,
   mkWorld
     [ts.mkNode
        (ts.EnumDeclaration [ts.ExportKeyword] "Status"
           [ts.mkEnumMember "UNSPECIFIED" 0 (Some synthetic_comment);
            ts.mkEnumMember "READY_TO_START" 1 None;
            ts.mkEnumMember "DONE" 2 None])
        ["The state of a job."]]
     [0]
     [call_addStatement 0;
      call_addCommentsForDescriptor 0 Sample.status appendToLeadingBlock]).
Proof. reflexivity. Qed.

Example scenario_anonymous_table :
  List.map ts.statement
    (store (snd (generateTranslationTable (Sample.commented "@Translate: GoTime")
                   Sample.anonymous Sample.empty_world))) =
  [translation_statement "undefinedTranslation"
     [ts.ObjectLiteralExpression
        [("id", ts.PropertyAccessExpression
                  (ts.Identifier "SpectralBot") "UNSPECIFIED");
         ("name", ts.StringLiteral "Unspecified")];
      ts.ObjectLiteralExpression
        [("id", ts.PropertyAccessExpression
                  (ts.Identifier "SpectralBot") "READY_TO_START");
         ("name", ts.StringLiteral "GoTime")];
      ts.ObjectLiteralExpression
        [("id", ts.PropertyAccessExpression
                  (ts.Identifier "SpectralBot") "DONE");
         ("name", ts.StringLiteral "GoTime")]]].
Proof. reflexivity. Qed.

(* ------------------------------------------------------------------ *)
(** * Further properties of the generator *)

(** ** The shape of humanized names *)

(** One character of [humanize]: [c] lower-cased, capitalised when it is
    a letter at a boundary, an underscore turned into a space. *)
Lemma humanize_cons (b : bool) (c : ascii) (s : string) :
  JsString.map underscore_to_space
    (capitalize_from is_separator b (toLowerCase (String c s)))
  = String (underscore_to_space
              (if b && cls_az (lower_unit c) then upper_unit (lower_unit c)
               else lower_unit c))
           (JsString.map underscore_to_space
              (capitalize_from is_separator (is_separator (lower_unit c))
                               (toLowerCase s))).
Proof. reflexivity. Qed.

Lemma humanized_char_fixed (b : bool) (c : ascii) :
  let o := underscore_to_space
             (if b && cls_az (lower_unit c) then upper_unit (lower_unit c)
              else lower_unit c) in
  underscore_to_space
    (if b && cls_az (lower_unit o) then upper_unit (lower_unit o)
     else lower_unit o) = o /\
  is_separator (lower_unit o) = is_separator (lower_unit c) /\
  is_underscore o = false /\
  b && cls_az o = false /\
  (cls_space o = true -> is_separator (lower_unit c) = true).
Proof. destruct b; all_chars c. Qed.

Lemma humanize_from_idempotent (s : string) :
  forall b,
  JsString.map underscore_to_space
    (capitalize_from is_separator b
       (toLowerCase
          (JsString.map underscore_to_space
             (capitalize_from is_separator b (toLowerCase s)))))
  = JsString.map underscore_to_space
      (capitalize_from is_separator b (toLowerCase s)).
Proof.
  induction s as [|c s IH]; intros b; [reflexivity|].
  rewrite humanize_cons.
  destruct (humanized_char_fixed b c) as (H1 & H2 & _).
  cbv zeta in H1, H2.
  rewrite humanize_cons, H1, H2. f_equal. apply IH.
Qed.

(** X1: humanizing a humanized name changes nothing. *)
Theorem X1_formatEnumName_idempotent (name : string) :
  formatEnumName (formatEnumName name) = formatEnumName name.
Proof.
  rewrite !formatEnumName_humanize. unfold humanize.
  apply humanize_from_idempotent.
Qed.

Lemma humanize_from_no_underscore (s : string) :
  forall b,
  has_underscore
    (JsString.map underscore_to_space
       (capitalize_from is_separator b (toLowerCase s))) = false.
Proof.
  induction s as [|c s IH]; intros b; [reflexivity|].
  rewrite humanize_cons.
  destruct (humanized_char_fixed b c) as (_ & _ & H3 & _).
  cbv zeta in H3. simpl. now rewrite H3, IH.
Qed.

Lemma capitalized_weaken (s : string) (b : bool) :
  capitalized true s = true -> capitalized b s = true.
Proof.
  destruct b; [tauto|]. destruct s as [|c s]; simpl; [tauto|].
  intros H. apply andb_true_iff in H. tauto.
Qed.

Lemma humanize_from_capitalized (s : string) :
  forall b,
  capitalized b
    (JsString.map underscore_to_space
       (capitalize_from is_separator b (toLowerCase s))) = true.
Proof.
  induction s as [|c s IH]; intros b; [reflexivity|].
  rewrite humanize_cons.
  destruct (humanized_char_fixed b c) as (_ & _ & _ & H4 & H5).
  cbv zeta in H4, H5. simpl. rewrite H4. simpl.
  match goal with |- capitalized (cls_space ?o) _ = true =>
    destruct (cls_space o) eqn:Sp end.
  - rewrite (H5 eq_refl). apply IH.
  - destruct (is_separator (lower_unit c)).
    + apply capitalized_weaken, IH.
    + apply IH.
Qed.

(** X2: a humanized name holds no underscore, and no letter a-z stands at
    its start or right after a white-space character. *)
Theorem X2_formatEnumName_shape (name : string) :
  has_underscore (formatEnumName name) = false /\
  capitalized true (formatEnumName name) = true.
Proof.
  rewrite formatEnumName_humanize. unfold humanize. split.
  - apply humanize_from_no_underscore.
  - apply humanize_from_capitalized.
Qed.

Lemma map_append (f : ascii -> ascii) (a b : string) :
  JsString.map f (a ++ b) = JsString.map f a ++ JsString.map f b.
Proof. induction a as [|x a IH]; simpl; [reflexivity | now rewrite IH]. Qed.

Lemma capitalize_from_append (sep : ascii -> bool) (a : string) (c : ascii)
    (b : string) :
  cls_az c = false ->
  forall flag,
  capitalize_from sep flag (a ++ String c b)
  = capitalize_from sep flag a ++ String c (capitalize_from sep (sep c) b).
Proof.
  intros Hc. induction a as [|x a IH]; intros flag; simpl.
  - now rewrite Hc, andb_false_r.
  - now rewrite IH.
Qed.

Lemma separator_lower (c : ascii) :
  is_separator c = true -> lower_unit c = c /\ cls_az c = false.
Proof. all_chars c. Qed.

(** X3: on names over the code units U+0000..U+00FF, where lower-casing
    works character by character, the words of a name are humanized one by
    one: around a separator (an underscore or a white-space character of
    that range) the label of the whole is the label of what stands before
    it, the separator (an underscore as a space), and the label of what
    stands after it. *)
Theorem X3_formatEnumName_word_by_word (a b : string) (c : ascii) :
  is_separator c = true ->
  formatEnumName (a ++ String c b)
  = formatEnumName a ++ String (underscore_to_space c) (formatEnumName b).
Proof.
  intros Hc. rewrite !formatEnumName_humanize. unfold humanize, toLowerCase.
  destruct (separator_lower _ Hc) as [Hl Haz].
  rewrite map_append. simpl. rewrite Hl.
  rewrite (capitalize_from_append _ _ _ _ Haz), map_append. simpl.
  now rewrite Hc.
Qed.

Lemma X3_formatEnumName_word_by_word_witness :
  formatEnumName ("READY_TO" ++ String "_" "START")
  = formatEnumName "READY_TO" ++ String (underscore_to_space "_")
                                        (formatEnumName "START").
Proof.
  exact (X3_formatEnumName_word_by_word "READY_TO" "START" "_" eq_refl).
Defined.

(** ** Labels *)

(** X4: the label of a catalog entry is either the humanized member name
    or a non-empty run of word characters that stands in the matched
    comment right after [@Translate: ]; so it is empty only for an empty
    member name. *)
Theorem X4_label_origin (this : EnumGenerator)
    (descriptor : EnumDescriptorProto.t) (ev : EnumObjectValue.t) :
  (translatedName this descriptor ev
   = formatEnumName (EnumObjectValue.name ev) \/
   exists pre tok post,
     matched_comment this descriptor ev
     = Some (pre ++ "@Translate: " ++ tok ++ post) /\
     tok <> "" /\ all_word tok = true /\
     translatedName this descriptor ev = tok) /\
  (EnumObjectValue.name ev <> "" -> translatedName this descriptor ev <> "").
Proof.
  assert (D : translatedName this descriptor ev
              = formatEnumName (EnumObjectValue.name ev) \/
              exists pre tok post,
                matched_comment this descriptor ev
                = Some (pre ++ "@Translate: " ++ tok ++ post) /\
                tok <> "" /\ all_word tok = true /\
                translatedName this descriptor ev = tok).
  { rewrite translatedName_matched.
    destruct (matched_comment this descriptor ev) as [text|]; [|now left].
    destruct (truthy text); [|now left].
    destruct (string_match text translate_pattern) as [m|] eqn:E; [|now left].
    right.
    destruct (string_match_translate_some _ _ E)
      as (pre & tok & post & -> & _ & Hne & Ha & _ & ->).
    now exists pre, tok, post. }
  split; [exact D|].
  intros Hne. destruct D as [-> | (pre & tok & post & _ & Ht & _ & ->)].
  - intros E.
    pose proof (length_formatEnumName (EnumObjectValue.name ev)) as L.
    rewrite E in L. simpl in L.
    destruct (EnumObjectValue.name ev); [now apply Hne | discriminate].
  - exact Ht.
Qed.

(** ** Declared members and catalog entries *)

Lemma find_value_sound (descriptor : EnumDescriptorProto.t)
    (ev : EnumObjectValue.t) (v : EnumValueDescriptorProto.t) :
  find_value descriptor ev = Some v ->
  In v (EnumDescriptorProto.value descriptor) /\
  EnumValueDescriptorProto.number v = Some (EnumObjectValue.number ev).
Proof.
  unfold find_value. intros H. apply find_some in H. destruct H as [Hin Hn].
  split; [exact Hin|].
  destruct (EnumValueDescriptorProto.number v) as [n|]; [|discriminate].
  apply Z.eqb_eq in Hn. now subst.
Qed.

Lemma find_value_complete (descriptor : EnumDescriptorProto.t)
    (ev : EnumObjectValue.t) :
  find_value descriptor ev = None ->
  forall v, In v (EnumDescriptorProto.value descriptor) ->
            EnumValueDescriptorProto.number v
            <> Some (EnumObjectValue.number ev).
Proof.
  unfold find_value. intros H v Hin Hv.
  pose proof (find_none _ _ H v Hin) as F. simpl in F.
  rewrite Hv, Z.eqb_refl in F. discriminate.
Qed.

Lemma generateEnum_member (this : EnumGenerator)
    (descriptor : EnumDescriptorProto.t) (w : World)
    (i : nat) (ev : EnumObjectValue.t) :
  nth_error (listEnumValues this descriptor) i = Some ev ->
  exists members,
    enum_declared (snd (generateEnum this descriptor w))
                  (fst (generateEnum this descriptor w))
                  (imports_type this descriptor) members /\
    nth_error members i = Some (member_of this descriptor ev).
Proof.
  intros Hi.
  exists (List.map (member_of this descriptor) (listEnumValues this descriptor)).
  rewrite generateEnum_run. simpl. split.
  - exists (type_comment_block this descriptor).
    unfold deref. simpl. apply nth_error_last.
  - now apply map_nth_error.
Qed.

Lemma generateTranslationTable_table (this : EnumGenerator)
    (descriptor : EnumDescriptorProto.t) (w : World) :
  exists table,
    deref (snd (generateTranslationTable this descriptor w))
          (List.length (store w)) = Some table /\
    table_elements (ts.statement table)
    = List.map (entry_of this descriptor) (listEnumValues this descriptor).
Proof.
  rewrite generateTranslationTable_run. simpl.
  eexists. split; [unfold deref; simpl; apply nth_error_last|].
  reflexivity.
Qed.

(** X5: when some declared member has the number of a catalog entry, the
    comment of the emitted member is the comment block of a declared member
    with exactly that number; the synthetic notice is then not chosen, and
    a declared member without a number or with another number never gives
    its comment. *)
Theorem X5_comment_from_member_with_the_number (this : EnumGenerator)
    (descriptor : EnumDescriptorProto.t) (w : World)
    (i : nat) (ev : EnumObjectValue.t) (u : EnumValueDescriptorProto.t) :
  nth_error (listEnumValues this descriptor) i = Some ev ->
  In u (EnumDescriptorProto.value descriptor) ->
  EnumValueDescriptorProto.number u = Some (EnumObjectValue.number ev) ->
  exists members m v,
    enum_declared (snd (generateEnum this descriptor w))
                  (fst (generateEnum this descriptor w))
                  (imports_type this descriptor) members /\
    nth_error members i = Some m /\
    In v (EnumDescriptorProto.value descriptor) /\
    EnumValueDescriptorProto.number v = Some (EnumObjectValue.number ev) /\
    find_value descriptor ev = Some v /\
    ts.member_comment m = getCommentBlock this v true.
Proof.
  intros Hi Hin Hu.
  destruct (generateEnum_member this descriptor w i ev Hi) as (members & Hd & Hm).
  destruct (find_value descriptor ev) as [v|] eqn:F.
  - destruct (find_value_sound _ _ _ F) as [Hv Hn].
    exists members, (member_of this descriptor ev), v.
    repeat split; auto. unfold member_of. simpl. now rewrite F.
  - exfalso. exact (find_value_complete _ _ F u Hin Hu).
Qed.

(** The member [STARTED = 1] of [Phase]: the first declared member has no
    number and is passed over. *)
Lemma X5_comment_from_member_with_the_number_witness :
  exists members m v,
    enum_declared
      (snd (generateEnum SampleAlias.services SampleAlias.phase
                         Sample.empty_world))
      (fst (generateEnum SampleAlias.services SampleAlias.phase
                         Sample.empty_world))
      "Phase" members /\
    nth_error members 1 = Some m /\
    In v (EnumDescriptorProto.value SampleAlias.phase) /\
    EnumValueDescriptorProto.number v = Some 1%Z /\
    find_value SampleAlias.phase SampleAlias.started = Some v /\
    ts.member_comment m = getCommentBlock SampleAlias.services v true.
Proof.
  apply (X5_comment_from_member_with_the_number
           SampleAlias.services SampleAlias.phase Sample.empty_world
           1 SampleAlias.started SampleAlias.running_decl).
  - reflexivity.
  - simpl. auto.
  - reflexivity.
Defined.

(** X6: catalog entries with the same number (aliases) are looked up as
    one: their members get the same comment and, when that comment holds a
    directive, their table elements get the same label, whatever their
    names are. *)
Theorem X6_aliases_share_comment_and_label (this : EnumGenerator)
    (descriptor : EnumDescriptorProto.t) (w : World)
    (i j : nat) (ev1 ev2 : EnumObjectValue.t) :
  nth_error (listEnumValues this descriptor) i = Some ev1 ->
  nth_error (listEnumValues this descriptor) j = Some ev2 ->
  EnumObjectValue.number ev1 = EnumObjectValue.number ev2 ->
  (exists members m1 m2,
     enum_declared (snd (generateEnum this descriptor w))
                   (fst (generateEnum this descriptor w))
                   (imports_type this descriptor) members /\
     nth_error members i = Some m1 /\ nth_error members j = Some m2 /\
     ts.member_comment m1 = ts.member_comment m2) /\
  (forall text n,
     matched_comment this descriptor ev1 = Some text ->
     first_directive_at n text ->
     exists table label,
       deref (snd (generateTranslationTable this descriptor w))
             (List.length (store w)) = Some table /\
       option_map element_label
         (nth_error (table_elements (ts.statement table)) i)
       = Some (Some label) /\
       option_map element_label
         (nth_error (table_elements (ts.statement table)) j)
       = Some (Some label)).
Proof.
  intros Hi Hj Hn.
  assert (F : find_value descriptor ev1 = find_value descriptor ev2)
    by (unfold find_value; now rewrite Hn).
  split.
  - destruct (generateEnum_member this descriptor w i ev1 Hi)
      as (members & Hd & Hm1).
    destruct (generateEnum_member this descriptor w j ev2 Hj)
      as (members' & (c' & Hd') & Hm2).
    destruct Hd as (c & Hd).
    assert (members' = members) by congruence. subst members'.
    exists members, (member_of this descriptor ev1),
           (member_of this descriptor ev2).
    repeat split; auto; [now exists c|].
    unfold member_of. simpl. now rewrite F.
  - intros text n Hc Hfirst.
    assert (Hc2 : matched_comment this descriptor ev2 = Some text)
      by (unfold matched_comment in *; now rewrite <- F).
    destruct (first_directive_split _ _ Hfirst)
      as (pre & tok & post & <- & -> & Hne & Ha & Hp).
    destruct (generateTranslationTable_table this descriptor w)
      as (table & Ht & He).
    exists table, tok. split; [exact Ht|]. rewrite He.
    rewrite (map_nth_error (entry_of this descriptor) _ _ Hi).
    rewrite (map_nth_error (entry_of this descriptor) _ _ Hj).
    unfold entry_of. simpl.
    rewrite (translatedName_first_directive this descriptor ev1 pre tok post
               Hc Hne Ha Hp Hfirst).
    rewrite (translatedName_first_directive this descriptor ev2 pre tok post
               Hc2 Hne Ha Hp Hfirst).
    split; reflexivity.
Qed.

(** [STARTED] and [RUNNING] are both 1: both take the comment of
    [STARTED], and both are labelled Begun; the directive of [RUNNING] is
    never read. *)
Lemma X6_aliases_share_comment_and_label_witness :
  (exists members m1 m2,
     enum_declared
       (snd (generateEnum SampleAlias.services SampleAlias.phase
                          Sample.empty_world))
       (fst (generateEnum SampleAlias.services SampleAlias.phase
                          Sample.empty_world))
       "Phase" members /\
     nth_error members 1 = Some m1 /\ nth_error members 2 = Some m2 /\
     ts.member_comment m1 = ts.member_comment m2) /\
  (exists table label,
     deref (snd (generateTranslationTable SampleAlias.services SampleAlias.phase
                                          Sample.empty_world)) 0
     = Some table /\
     option_map element_label
       (nth_error (table_elements (ts.statement table)) 1)
     = Some (Some label) /\
     option_map element_label
       (nth_error (table_elements (ts.statement table)) 2)
     = Some (Some label)).
Proof.
  destruct (X6_aliases_share_comment_and_label
              SampleAlias.services SampleAlias.phase Sample.empty_world
              1 2 SampleAlias.started SampleAlias.running
              eq_refl eq_refl eq_refl) as [H1 H2].
  split; [exact H1|].
  apply (H2 "Work began. @Translate: Begun" 12); [reflexivity|].
  split; [reflexivity|].
  intros k Hk. do 12 (destruct k as [|k]; [reflexivity|]). lia.
Defined.

(** ** The two methods together *)

Lemma entry_of_referenced_member (this : EnumGenerator)
    (descriptor : EnumDescriptorProto.t) (ev : EnumObjectValue.t) :
  referenced_member (entry_of this descriptor ev)
  = Some (EnumObjectValue.name ev) /\
  element_label (entry_of this descriptor ev)
  = Some (translatedName this descriptor ev).
Proof. split; reflexivity. Qed.

(** X7: the table refers to the members the declaration has: for the same
    descriptor, whatever the files are, the member names accessed in the
    [id]s of the table are the member names of the enum declaration, one
    for one and in the same order. *)
Theorem X7_table_refers_to_declared_members (this : EnumGenerator)
    (descriptor : EnumDescriptorProto.t) (w w' : World) :
  exists declaration table,
    deref (snd (generateEnum this descriptor w))
          (fst (generateEnum this descriptor w)) = Some declaration /\
    deref (snd (generateTranslationTable this descriptor w'))
          (List.length (store w')) = Some table /\
    List.map referenced_member (table_elements (ts.statement table))
    = List.map Some (declared_member_names (ts.statement declaration)).
Proof.
  destruct (generateTranslationTable_table this descriptor w')
    as (table & Ht & He).
  rewrite generateEnum_run. simpl.
  eexists _, table. split; [unfold deref; simpl; apply nth_error_last|].
  split; [exact Ht|].
  rewrite He. simpl. rewrite !map_map. reflexivity.
Qed.

Lemma two_new_objects {A : Type} (l : list A) (a b : A) :
  nth_error ((l ++ [a]) ++ [b])%list (List.length l) = Some a /\
  nth_error ((l ++ [a]) ++ [b])%list (S (List.length l)) = Some b /\
  (forall i, i < List.length l ->
             nth_error ((l ++ [a]) ++ [b])%list i = nth_error l i) /\
  List.length ((l ++ [a]) ++ [b])%list = S (S (List.length l)).
Proof.
  rewrite <- app_assoc. cbn [app]. repeat split.
  - rewrite nth_error_app2 by lia. now rewrite Nat.sub_diag.
  - rewrite nth_error_app2 by lia.
    now replace (S (List.length l) - List.length l) with 1 by lia.
  - intros i Hi. now apply nth_error_app1.
  - rewrite length_app. simpl. lia.
Qed.

(** X8: [generateEnum] followed by [generateTranslationTable] on the same
    file adds exactly two statements, the declaration and then the table;
    making the table leaves the declaration and its comment as they are and
    attaches no comment to the table; every object and statement the file
    had before is unchanged.  In the other order the same two objects are
    made, in the other order. *)
Theorem X8_declaration_then_table (this : EnumGenerator)
    (descriptor : EnumDescriptorProto.t) (w : World) :
  let r := fst (generateEnum this descriptor w) in
  let w1 := snd (generateEnum this descriptor w) in
  let w2 := snd (generateTranslationTable this descriptor w1) in
  let v1 := snd (generateTranslationTable this descriptor w) in
  let v2 := snd (generateEnum this descriptor v1) in
  r = List.length (store w) /\
  source_statements w2 = (source_statements w ++ [r; S r])%list /\
  List.length (store w2) = S (S (List.length (store w))) /\
  deref w2 r = deref w1 r /\
  (exists table, deref w2 (S r) = Some table /\ ts.leadingComments table = []) /\
  (forall r', r' < r -> deref w2 r' = deref w r') /\
  fst (generateEnum this descriptor v1) = S r /\
  source_statements v2 = (source_statements w ++ [r; S r])%list /\
  deref v2 (S r) = deref w2 r /\
  deref v2 r = deref w2 (S r).
Proof.
  intros r w1 w2 v1 v2. subst r w1 w2 v1 v2.
  rewrite !generateEnum_run, !generateTranslationTable_run.
  cbn [fst snd store source_statements]. unfold deref.
  cbn [store].
  rewrite !(length_app (store w)). cbn [List.length].
  rewrite !Nat.add_1_r.
  match goal with
  | |- context [((store w ++ [?a]) ++ [?b])%list] =>
      destruct (two_new_objects (store w) a b) as (Ha & Hb & Hold & Hlen)
  end.
  match goal with
  | |- context [((store w ++ [?b]) ++ [?a])%list] =>
      lazymatch b with
      | ts.mkNode (translation_statement _ _) _ =>
          destruct (two_new_objects (store w) b a) as (Hb' & Ha' & _ & _)
      end
  end.
  rewrite Ha, Hb, Ha', Hb', Hlen, nth_error_last.
  repeat split; try reflexivity; try (now rewrite <- app_assoc).
  - eexists. split; reflexivity.
  - intros r' Hr. now apply Hold.
Qed.
